(** * node-v8-workers: the three [mutate] addons

  A shallow embedding of [mutate01/mutate.cpp] (synchronous [setup] /
  [mutate]), [mutate02/mutate.cpp] (a detached worker that touches the
  isolate without a lock) and [mutate03/mutate.cpp] (the same worker
  under a [v8::Locker]), with the properties the specification states
  about them.

  The addons are written against the V8 embedder API and are loaded by
  Node.  Neither is part of the repository; [Module Engine] gives the
  calls the addons make their documented meaning:

  - objects are tables of data properties (no accessors, proxies or
    frozen objects; string- and symbol-valued fields are left out
    because their numeric conversion needs a parser), each with the
    outcome of its conversion to a number;
  - Node's main thread (the host) holds the isolate's [v8::Locker] when
    an addon is loaded, and script, so every call of an addon function,
    runs on it while it holds the lock;
  - V8 ends the process when a thread that does not hold the lock
    enters the API. *)

From Stdlib Require Import Floats ZArith.
From stdpp Require Import base option list gmap strings.

(* stdpp's [simplify_eq] clears hypotheses that [injection] has already
   consumed. *)
#[local] Set Warnings "-clear-no-such-hyp".

(** ** The engine as the addons see it *)

Module Engine.

(** A heap address of a JavaScript object. *)
Definition loc := positive.

(** [v8::Value], restricted to the kinds listed in the header. *)
Inductive Value :=
  | Undefined
  | Null
  | Boolean (b : bool)
  | Number (d : float)
  | Object (l : loc).

(** What ECMAScript's ToNumber makes of an object.  It asks the
    object's [valueOf] and [toString] (ToPrimitive), script code as a
    rule, so the outcome is the object's own: a number (8 for
    [{valueOf() {return 8}}], 7 for the array [[7]], 1000 for
    [new Date(1000)], NaN for a plain [{}]) or an exception.  That
    script code is taken to do nothing but give its result, the same
    at every call. *)
Inductive Conversion :=
  | Converts (d : float)
  | ConversionThrows.

(** An object of the heap: its data properties and its conversion. *)
Record Obj := mkObj {
  props : gmap string Value;
  to_number : Conversion
}.

#[global] Instance obj_lookup : Lookup string Value Obj :=
  λ k o, props o !! k.

#[global] Instance obj_insert : Insert string Value Obj :=
  λ k v o, mkObj (<[k := v]> (props o)) (to_number o).

(** The isolate's object heap together with the addon's global
    [Persistent<Object> persist] ([None] is the empty handle). *)
Record State := mkState {
  heap : gmap loc Obj;
  persist : option loc
}.

(** What a [FunctionCallback] looks like from the calling script: it
    returns (the return value is [undefined] unless the callback sets
    it), it returns with an exception scheduled on the isolate, or the
    process dies in the callback. *)
Inductive Outcome (S : Type) :=
  | Returned (rv : Value) (s : S)
  | Threw (s : S)
  | Fault.
Arguments Returned {S} rv s.
Arguments Threw {S} s.
Arguments Fault {S}.

(** ECMAScript ToNumber. *)
Definition ToNumber (h : gmap loc Obj) (v : Value) : Conversion :=
  match v with
  | Undefined => Converts nan
  | Null => Converts 0
  | Boolean true => Converts 1
  | Boolean false => Converts 0
  | Number d => Converts d
  | Object l =>
      match h !! l with
      | Some o => to_number o
      | None => Converts nan
      end
  end.

(** [Value::NumberValue()]: the result of ToNumber; when the conversion
    throws, NaN, with the exception left scheduled on the isolate
    ([NumberValue_throws]). *)
Definition NumberValue (h : gmap loc Obj) (v : Value) : float :=
  match ToNumber h v with
  | Converts d => d
  | ConversionThrows => nan
  end.

Definition NumberValue_throws (h : gmap loc Obj) (v : Value) : bool :=
  match ToNumber h v with
  | Converts _ => false
  | ConversionThrows => true
  end.

(** The wrapper of a boxed primitive: no data property of its own, and
    the primitive as its conversion. *)
Definition wrapper (v : Value) : Obj := mkObj ∅ (ToNumber ∅ v).

(** [Value::ToObject()]: an object is itself, [undefined] and [null]
    schedule a TypeError and yield the empty handle, the other
    primitives are boxed in a fresh wrapper. *)
Definition ToObject (v : Value) (h : gmap loc Obj) : option loc * gmap loc Obj :=
  match v with
  | Object l => (Some l, h)
  | Undefined | Null => (None, h)
  | Boolean _ | Number _ => let l := fresh (dom h) in (Some l, <[l := wrapper v]> h)
  end.

(** [Local<Object>::New(isolate, persist)]: the empty handle stays
    empty. *)
Definition Local_New (p : option loc) : option loc := p.

(** [obj->Get(key)] on the heap object at [l]: a missing key reads as
    [undefined]; [None] when [l] is no object of the heap. *)
Definition Object_Get (h : gmap loc Obj) (l : loc) (key : string) : option Value :=
  o ← h !! l; Some (default Undefined (o !! key)).

(** [obj->Set(key, v)]. *)
Definition Object_Set (l : loc) (key : string) (v : Value) (h : gmap loc Obj)
  : gmap loc Obj :=
  alter (<[key := v]>) l h.

(** The field [k] of the object at [l], as a script would read it. *)
Definition field (st : State) (l : loc) (k : string) : option Value :=
  Object_Get (heap st) l k.

(** The threads of the process: Node's main thread, on which script
    and the addon's exported functions run, and the threads the addon
    spawns, named by the order in which they were spawned. *)
Inductive Thread :=
  | Host
  | Spawned (t : nat).

#[global] Instance Thread_eq_dec : EqDecision Thread.
Proof. solve_decision. Defined.

(** The constructor of [v8::HandleScope].  Once a [v8::Locker] has been
    used in the process (Node's main thread uses one from the start),
    it checks that the calling thread holds the isolate's lock, and
    ends the process otherwise ("Entering the V8 API without proper
    locking in place").  [locker] is the thread that holds the lock. *)
Definition HandleScope (locker : option Thread) (me : Thread) : bool :=
  bool_decide (locker = Some me).

End Engine.
Import Engine.

(** ** The read-modify-write

    The statements that the three files share word for word. *)

Module Operation.

Definition key : string := "x".

(**
<<
    Local<String> key = String::NewFromUtf8(isolate, "x");
    Local<Object> target = Local<Object>::New(isolate, persist);
    double current = target->ToObject()->Get(key)->NumberValue();
>>
    [target->ToObject()] calls through the handle, so an empty [target]
    has no defined behaviour: [None]. *)
Definition load (st : State) : option (loc * float) :=
  target ← Local_New (persist st);
  v ← Object_Get (heap st) target key;
  Some (target, NumberValue (heap st) v).

(** Whether that [NumberValue()] leaves an exception scheduled. *)
Definition load_throws (st : State) : bool :=
  match Local_New (persist st) ≫= (λ target, Object_Get (heap st) target key) with
  | Some v => NumberValue_throws (heap st) v
  | None => false
  end.

(** [target->Set(key, Number::New(isolate, current + 42));] *)
Definition store (target : loc) (current : float) (st : State) : State :=
  mkState (Object_Set target key (Number (current + 42)%float) (heap st)) (persist st).

End Operation.
Import Operation.

(** ** mutate01: [setup] and [mutate] on the host thread

    Script calls both, so they run on the host thread while it holds the
    lock; mutate01 starts no other thread. *)

Module V1.

(** [Setup]: [persist.Reset(isolate, args[0]->ToObject())]. *)
Definition Setup (arg : Value) (st : State) : Outcome State :=
  let '(o, h) := ToObject arg (heap st) in
  let st' := mkState h o in
  match o with
  | Some _ => Returned Undefined st'
  | None => Threw st'
  end.

(** [Mutate]: the read-modify-write on the host thread.  It sets no
    return value.  An exception that [NumberValue()] left scheduled
    reaches the script when the callback returns, after the [Set]. *)
Definition Mutate (st : State) : Outcome State :=
  match load st with
  | Some (target, current) =>
      let st' := store target current st in
      if load_throws st then Threw st' else Returned Undefined st'
  | None => Fault
  end.

Inductive Call := CallSetup (arg : Value) | CallMutate.

Definition call (c : Call) (st : State) : Outcome State :=
  match c with
  | CallSetup arg => Setup arg st
  | CallMutate => Mutate st
  end.

(** A script on the host thread: the calls one after the other.  A
    thrown exception is the script's to catch; a fault ends the
    process. *)
Fixpoint calls (cs : list Call) (st : State) : option State :=
  match cs with
  | [] => Some st
  | c :: cs' =>
      match call c st with
      | Returned _ st' | Threw st' => calls cs' st'
      | Fault => None
      end
  end.

End V1.

(** ** Threads and schedules

    The host thread and the detached workers run as an interleaving of
    atomic steps. *)

Module Sched.

(** What a step does, as a harness could log it. *)
Inductive Event :=
  | EvSleep                                  (* [sleep_for(500ms)] returned *)
  | EvAcquire                                (* a [v8::Locker] constructed, isolate entered *)
  | EvRead (target : loc) (current : float)  (* [Local::New], [Get], [NumberValue] *)
  | EvWrite (target : loc) (current : float) (* [Set(key, current + 42)] *)
  | EvRelease.                               (* the lock given up *)

(** One step of a worker: it moves on, it waits for the lock, the
    process dies, or there is no such worker. *)
Inductive Step (S : Type) :=
  | Stepped (ev : Event) (s : S)
  | Blocked
  | Crashed
  | NoThread.
Arguments Stepped {S} ev s.
Arguments Blocked {S}.
Arguments Crashed {S}.
Arguments NoThread {S}.

(** The steps of a schedule.  [HostStart] and [Run] are what the files
    do.  Nothing in them makes the host thread give the lock up:
    [HostUnlock] and [HostLock] stand for an embedder, or other code on
    the host thread, that does ([v8::Unlocker]), so that what is proved
    about the workers' locking holds whatever the host does with the
    lock.  The runs of the files alone are the schedules without
    them. *)
Inductive Action :=
  | HostStart (arg : Value)   (* the script calls [start(arg)] *)
  | HostUnlock                (* the host thread gives the lock up *)
  | HostLock                  (* the host thread takes the lock again *)
  | Run (t : nat).            (* worker [t] takes its next step *)

Abbreviation Trace := (list (Thread * Event)).

Section Exec.
Context {S : Type}.
Variable Start : Value → S → Outcome S.
Variable worker_step : nat → S → Step S.
Variable locker : S → option Thread.
Variable with_locker : option Thread → S → S.

(** A blocked thread (or a missing one) leaves the state as it is. *)
Definition act (a : Action) (s : S) : option (Trace * S) :=
  match a with
  | HostStart arg =>
      match Start arg s with
      | Returned _ s' | Threw s' => Some ([], s')
      | Fault => None
      end
  | HostUnlock =>
      if bool_decide (locker s = Some Host)
      then Some ([(Host, EvRelease)], with_locker None s)
      else Some ([], s)
  | HostLock =>
      match locker s with
      | None => Some ([(Host, EvAcquire)], with_locker (Some Host) s)
      | Some _ => Some ([], s)
      end
  | Run t =>
      match worker_step t s with
      | Stepped ev s' => Some ([(Spawned t, ev)], s')
      | Blocked | NoThread => Some ([], s)
      | Crashed => None
      end
  end.

Fixpoint exec (sched : list Action) (s : S) : option (Trace * S) :=
  match sched with
  | [] => Some ([], s)
  | a :: sched' =>
      '(tr1, s1) ← act a s;
      '(tr2, s2) ← exec sched' s1;
      Some (tr1 ++ tr2, s2)
  end.
End Exec.

(** The events of worker [t] in a trace, and the writes in it. *)
Definition events_of (t : nat) (tr : Trace) : list Event :=
  (filter (λ e, e.1 = Spawned t) tr).*2.

Definition is_write (ev : Event) : bool :=
  match ev with EvWrite _ _ => true | _ => false end.

Definition writes (tr : Trace) : nat :=
  length (filter (λ e, is_write e.2 = true) tr).

Definition is_acquire (ev : Event) : bool :=
  match ev with EvAcquire => true | _ => false end.

Definition is_release (ev : Event) : bool :=
  match ev with EvRelease => true | _ => false end.

Definition count (f : Event → bool) (l : list Event) : nat :=
  length (List.filter f l).

(** Schedules of worker steps; schedules without a call of [start];
    and the schedules of the files alone (see [Action]). *)
Definition worker_only (a : Action) : Prop :=
  match a with Run _ => True | _ => False end.

Definition no_start (a : Action) : Prop :=
  match a with HostStart _ => False | _ => True end.

Definition of_the_files (a : Action) : Prop :=
  match a with HostStart _ | Run _ => True | HostUnlock | HostLock => False end.

End Sched.
Import Sched.

(** ** mutate02: the worker without a lock *)

Module V2.

(** Where a worker is in the body of [while (true)]. *)
Inductive Phase :=
  | Sleeping                                 (* in [sleep_for], line 11 *)
  | Woken                                    (* before lines 14-17 *)
  | Loaded (target : loc) (current : float). (* before line 18 *)

Record Sys := mkSys {
  world : State;
  locker : option Thread;   (* the thread that holds the isolate's lock *)
  workers : list Phase
}.

Definition with_locker (h : option Thread) (s : Sys) : Sys :=
  mkSys (world s) h (workers s).

(** The addon has just been loaded: no worker yet, and the host thread
    holds the lock. *)
Definition at_load (w : State) : Sys := mkSys w (Some Host) [].

(** [mutate(isolate)], one atomic step at a time.  The thread takes no
    lock, so the [HandleScope] of line 14 decides whether it gets to
    lines 15-18. *)
Definition mutate (t : nat) (s : Sys) : Step Sys :=
  match workers s !! t with
  | None => NoThread
  | Some Sleeping =>
      Stepped EvSleep (mkSys (world s) (locker s) (<[t := Woken]> (workers s)))
  | Some Woken =>
      if HandleScope (locker s) (Spawned t) then
        match load (world s) with
        | Some (target, current) =>
            Stepped (EvRead target current)
                    (mkSys (world s) (locker s) (<[t := Loaded target current]> (workers s)))
        | None => Crashed
        end
      else Crashed
  | Some (Loaded target current) =>
      Stepped (EvWrite target current)
              (mkSys (store target current (world s)) (locker s)
                     (<[t := Sleeping]> (workers s)))
  end.

(** [Start]: reset [persist], then spawn and detach a worker.  Script
    calls it, so it runs in a [HandleScope] of the host thread. *)
Definition Start (arg : Value) (s : Sys) : Outcome Sys :=
  if HandleScope (locker s) Host then
    let '(o, h) := ToObject arg (heap (world s)) in
    let s' := mkSys (mkState h o) (locker s) (workers s ++ [Sleeping]) in
    match o with
    | Some _ => Returned Undefined s'
    | None => Threw s'
    end
  else Fault.

Definition exec := Sched.exec Start mutate locker with_locker.

End V2.

(** ** mutate03: the worker under [v8::Locker] *)

Module V3.

(** Inside the scope of [locker]. *)
Inductive CS :=
  | Entered                                  (* before lines 20-23 *)
  | Loaded (target : loc) (current : float)  (* before line 24 *)
  | Stored (target : loc) (current : float). (* before the closing brace, line 28 *)

Inductive Phase :=
  | Sleeping                                 (* in [sleep_for], line 12 *)
  | AcquiringLock                            (* in the [Locker] constructor, line 15 *)
  | InCriticalSection (c : CS).

(** A worker: its place in the loop and how often it has called
    [isolate->Enter()] (line 16; the file never calls [Exit]). *)
Record Worker := mkWorker {
  phase : Phase;
  entered : nat
}.

Record Sys := mkSys {
  world : State;
  locker : option Thread;   (* the thread that holds the isolate's lock *)
  workers : list Worker
}.

Definition with_locker (h : option Thread) (s : Sys) : Sys :=
  mkSys (world s) h (workers s).

(** The addon has just been loaded: no worker yet, and the host thread
    holds the lock. *)
Definition at_load (w : State) : Sys := mkSys w (Some Host) [].

(** [mutate(isolate)], one atomic step at a time.  The [Locker]
    constructor returns only once no other thread holds the lock (a
    worker asks for it from outside the scope only, so never while it
    holds it itself).  An exception that [NumberValue()] leaves
    scheduled on the worker thread has no script to reach. *)
Definition mutate (t : nat) (s : Sys) : Step Sys :=
  match workers s !! t with
  | None => NoThread
  | Some w =>
      match phase w with
      | Sleeping =>
          Stepped EvSleep
            (mkSys (world s) (locker s) (<[t := mkWorker AcquiringLock (entered w)]> (workers s)))
      | AcquiringLock =>
          match locker s with
          | None =>
              Stepped EvAcquire
                (mkSys (world s) (Some (Spawned t))
                   (<[t := mkWorker (InCriticalSection Entered) (S (entered w))]> (workers s)))
          | Some _ => Blocked
          end
      | InCriticalSection Entered =>
          if HandleScope (locker s) (Spawned t) then
            match load (world s) with
            | Some (target, current) =>
                Stepped (EvRead target current)
                  (mkSys (world s) (locker s)
                     (<[t := mkWorker (InCriticalSection (Loaded target current)) (entered w)]>
                        (workers s)))
            | None => Crashed
            end
          else Crashed
      | InCriticalSection (Loaded target current) =>
          Stepped (EvWrite target current)
            (mkSys (store target current (world s)) (locker s)
               (<[t := mkWorker (InCriticalSection (Stored target current)) (entered w)]>
                  (workers s)))
      | InCriticalSection (Stored _ _) =>
          Stepped EvRelease
            (mkSys (world s) None (<[t := mkWorker Sleeping (entered w)]> (workers s)))
      end
  end.

(** [Start]: reset [persist], then spawn and detach a worker.  Script
    calls it, so it runs in a [HandleScope] of the host thread; it
    leaves the lock with the host. *)
Definition Start (arg : Value) (s : Sys) : Outcome Sys :=
  if HandleScope (locker s) Host then
    let '(o, h) := ToObject arg (heap (world s)) in
    let s' := mkSys (mkState h o) (locker s) (workers s ++ [mkWorker Sleeping 0]) in
    match o with
    | Some _ => Returned Undefined s'
    | None => Threw s'
    end
  else Fault.

Definition exec := Sched.exec Start mutate locker with_locker.

Definition in_cs (p : Phase) : bool :=
  match p with InCriticalSection _ => true | _ => false end.

(** The log of one full pass through the loop body that read [current]
    from [target], and the log of the pass a worker is in the middle
    of. *)
Definition wake_log (op : loc * float) : list Event :=
  [EvSleep; EvAcquire; EvRead op.1 op.2; EvWrite op.1 op.2; EvRelease].

Definition pending (p : Phase) : list Event :=
  match p with
  | Sleeping => []
  | AcquiringLock => [EvSleep]
  | InCriticalSection Entered => [EvSleep; EvAcquire]
  | InCriticalSection (Loaded l c) => [EvSleep; EvAcquire; EvRead l c]
  | InCriticalSection (Stored l c) => [EvSleep; EvAcquire; EvRead l c; EvWrite l c]
  end.

(** A harness replaying a log against a lock: [EvAcquire] needs the
    lock free, a read, a write and [EvRelease] need it held by the
    thread that logs them.  [None] when the log breaks that. *)
Definition replay_event (h : option Thread) (e : Thread * Event) : option (option Thread) :=
  match e.2 with
  | EvSleep => Some h
  | EvAcquire => match h with None => Some (Some e.1) | Some _ => None end
  | EvRead _ _ | EvWrite _ _ => if decide (h = Some e.1) then Some h else None
  | EvRelease => if decide (h = Some e.1) then Some None else None
  end.

Fixpoint replay (h : option Thread) (tr : Trace) : option (option Thread) :=
  match tr with
  | [] => Some h
  | e :: tr' => h' ← replay_event h e; replay h' tr'
  end.

End V3.

(** ** Reading aids for the statements *)

(** *** Numbers *)

(** [k] successive double-precision additions of 42. *)
Definition add42 (d : float) : float := (d + 42)%float.
Definition increments (k : nat) (v0 : float) : float := Nat.iter k add42 v0.

(** The numeric value of field [key] of an object, as [NumberValue()]
    gives it in heap [h]. *)
Definition x_of (h : gmap loc Obj) (o : Obj) : float :=
  NumberValue h (default Undefined (o !! key)).

(** An integer below 2^63, and a count, as a double. *)
Definition float_of_Z (n : Z) : float := PrimFloat.of_uint63 (Uint63.of_Z n).
Definition float_of_nat (n : nat) : float := float_of_Z (Z.of_nat n).

(** The exact integer a double stands for, when it is one. *)
Definition integral_value (d : float) : option Z :=
  match Prim2SF d with
  | S754_zero _ => Some 0%Z
  | S754_finite s m e =>
      let n := if s then Z.neg m else Z.pos m in
      if (0 <=? e)%Z then Some (n * 2 ^ e)%Z
      else if (n mod 2 ^ (- e) =? 0)%Z then Some (n / 2 ^ (- e))%Z else None
  | _ => None
  end.

(** The positive [n] shifted left by [k] bits, the number of its binary
    digits, and the binary64 datum that stands for it when it has at
    most 53 of them: the mantissa filled up to 53 bits. *)
Definition sh (n : positive) (k : nat) : positive := Nat.iter k xO n.
Definition Zsize (n : positive) : Z := Z.pos (Pos.size n).
Definition canon (n : positive) : spec_float :=
  S754_finite false (sh n (Z.to_nat (53 - Zsize n))) (Zsize n - 53).

(** *** Heaps and logs *)

(** Two heaps that differ at most in field [key] of the object at [r]. *)
Definition same_but_x (r : loc) (h h' : gmap loc Obj) : Prop :=
  (∀ l, l ≠ r → h' !! l = h !! l) ∧
  (∀ o, h !! r = Some o →
     ∃ o', h' !! r = Some o' ∧ to_number o' = to_number o ∧
           ∀ k, k ≠ key → o' !! k = o !! k) ∧
  (h !! r = None → h' !! r = None).

(** Two heaps whose objects convert to the same numbers. *)
Definition same_numbers (h h' : gmap loc Obj) : Prop :=
  ∀ l, to_number <$> h' !! l = to_number <$> h !! l.

(** The events that touch the isolate's heap. *)
Definition touches_engine (ev : Event) : Prop :=
  match ev with EvRead _ _ | EvWrite _ _ => True | _ => False end.

(** The events that concern no record but [r]. *)
Definition targets (r : loc) (ev : Event) : Prop :=
  match ev with EvRead l _ | EvWrite l _ => l = r | _ => True end.

(** The steps a worker still has to take to leave the scope of its
    [locker]. *)
Definition remaining (c : V3.CS) : nat :=
  match c with V3.Entered => 3 | V3.Loaded _ _ => 2 | V3.Stored _ _ => 1 end.

(** The [start] calls of a schedule. *)
Definition is_start (a : Action) : bool :=
  match a with HostStart _ => true | _ => false end.

Definition starts (sched : list Action) : nat := length (List.filter is_start sched).

(** One action of a schedule of mutate02, of mutate03. *)
Abbreviation act2 := (Sched.act V2.Start V2.mutate V2.locker V2.with_locker).
Abbreviation act3 := (Sched.act V3.Start V3.mutate V3.locker V3.with_locker).

(** *** Invariants *)

(** A worker of mutate03 holds the lock exactly while it is inside the
    scope of its [locker]. *)
Definition lock_inv (s : V3.Sys) : Prop :=
  (∀ t w, V3.workers s !! t = Some w → V3.in_cs (V3.phase w) = true →
          V3.locker s = Some (Spawned t)) ∧
  (∀ t, V3.locker s = Some (Spawned t) →
        ∃ w, V3.workers s !! t = Some w ∧ V3.in_cs (V3.phase w) = true).

(** The log of every worker is a run of full passes followed by the
    pass it is in; it has entered the isolate once per acquisition. *)
Definition shape_inv (tr : Trace) (s : V3.Sys) : Prop :=
  ∀ t,
    match V3.workers s !! t with
    | Some w =>
        ∃ ops : list (loc * float),
          events_of t tr = mjoin (V3.wake_log <$> ops) ++ V3.pending (V3.phase w) ∧
          V3.entered w = length ops + (if V3.in_cs (V3.phase w) then 1 else 0)
    | None => events_of t tr = []
    end.

(** With [r] registered and [v0] the numeric value of its field at the
    start, the field has taken one addition of 42 per logged write, and
    a value a worker has read and not yet written back is the current
    one. *)
Definition serial_inv (r : loc) (v0 : float) (tr : Trace) (s : V3.Sys) : Prop :=
  persist (V3.world s) = Some r ∧
  (∃ o, heap (V3.world s) !! r = Some o ∧
        x_of (heap (V3.world s)) o = increments (writes tr) v0 ∧
        (0 < writes tr → o !! key = Some (Number (increments (writes tr) v0)))) ∧
  (∀ t w l c, V3.workers s !! t = Some w →
      V3.phase w = V3.InCriticalSection (V3.Loaded l c) →
      l = r ∧ c = increments (writes tr) v0).

(** With [r] registered since heap [h0]: the heap differs from [h0] at
    most in field [key] of [r], and the reads and writes logged since
    concern no record but [r]. *)
Definition frame_inv (r : loc) (h0 : gmap loc Obj) (tr : Trace) (s : V3.Sys) : Prop :=
  same_but_x r h0 (heap (V3.world s)) ∧ Forall (λ e, targets r e.2) tr.

(** No worker of mutate03 is inside the scope of its [locker]: each
    has logged nothing, or the one wake after which it waits. *)
Definition waiting (tr : Trace) (s : V3.Sys) : Prop :=
  ∀ t, match V3.workers s !! t with
       | Some w => V3.in_cs (V3.phase w) = false ∧
                   (events_of t tr = [] ∨
                    (events_of t tr = [EvSleep] ∧ V3.phase w = V3.AcquiringLock))
       | None => events_of t tr = []
       end.

(** While thread [h] holds the lock of mutate03 and no worker is inside
    the scope of its [locker]. *)
Definition waits_inv (h : Thread) (s0 : V3.Sys) (tr : Trace) (s : V3.Sys) : Prop :=
  V3.world s = V3.world s0 ∧ V3.locker s = Some h ∧
  Forall (λ e, e.2 = EvSleep) tr ∧ waiting tr s.

(** mutate03 as the files run it: the host thread holds the lock, the
    objects of heap [h0] are as they were, and the workers wait. *)
Definition standstill_inv (h0 : gmap loc Obj) (tr : Trace) (s : V3.Sys) : Prop :=
  V3.locker s = Some Host ∧
  (∀ l o, h0 !! l = Some o → heap (V3.world s) !! l = Some o) ∧
  Forall (λ e, e.2 = EvSleep) tr ∧ waiting tr s.

(** mutate02: no worker ever holds the lock, none has got past its
    [HandleScope] (a worker has logged nothing, or the one wake after
    which it stands before line 14), the objects of heap [h0] are as
    they were, and no read or write is logged. *)
Definition outside_inv (h0 : gmap loc Obj) (tr : Trace) (s : V2.Sys) : Prop :=
  (∀ t, V2.locker s ≠ Some (Spawned t)) ∧
  (∀ t, match V2.workers s !! t with
        | Some V2.Sleeping | None => events_of t tr = []
        | Some V2.Woken => events_of t tr = [EvSleep]
        | Some (V2.Loaded _ _) => False
        end) ∧
  (∀ l o, h0 !! l = Some o → heap (V2.world s) !! l = Some o) ∧
  Forall (λ e, ¬ touches_engine e.2) tr.

(** *** Scripts of mutate01 *)

(** The primitives that [ToObject] boxes. *)
Definition boxed (v : Value) : Prop :=
  match v with Boolean _ | Number _ => True | _ => False end.

(** What [null] and the booleans count as. *)
Definition coerced (v : Value) : option Z :=
  match v with
  | Null => Some 0%Z
  | Boolean b => Some (if b then 1 else 0)%Z
  | _ => None
  end.

(** Whether a script of mutate01 calls [mutate()] with nothing
    registered: before the first [setup], or after a [setup] that got
    [undefined] or [null] (and threw). *)
Fixpoint mutates_unregistered (registered : bool) (cs : list V1.Call) : bool :=
  match cs with
  | [] => false
  | V1.CallSetup arg :: cs' =>
      mutates_unregistered (match arg with Undefined | Null => false | _ => true end) cs'
  | V1.CallMutate :: cs' => if registered then mutates_unregistered true cs' else true
  end.

(** The handle is empty or holds an object that is there, and so are
    the objects a script hands to [setup]. *)
Definition handle_live (st : State) : Prop :=
  match persist st with Some r => is_Some (heap st !! r) | None => True end.

Definition arg_live (h : gmap loc Obj) (c : V1.Call) : Prop :=
  match c with V1.CallSetup (Object r) => is_Some (h !! r) | _ => True end.

(** A script of mutate01 that registers live objects only and calls
    [mutate()] only while one is registered. *)
Fixpoint script_ok (h : gmap loc Obj) (cur : option loc) (cs : list V1.Call) : bool :=
  match cs with
  | [] => true
  | V1.CallSetup (Object r) :: cs' =>
      match h !! r with Some _ => script_ok h (Some r) cs' | None => false end
  | V1.CallSetup _ :: _ => false
  | V1.CallMutate :: cs' =>
      match cur ≫= (h !!.) with Some _ => script_ok h cur cs' | None => false end
  end.

(** The [mutate()] calls of a script that find [l] registered: those
    for which the last [setup] before them was [setup(l)]. *)
Fixpoint credits (l : loc) (cur : option loc) (cs : list V1.Call) : nat :=
  match cs with
  | [] => 0
  | V1.CallSetup arg :: cs' =>
      credits l (match arg with Object r => Some r | _ => None end) cs'
  | V1.CallMutate :: cs' =>
      (if decide (cur = Some l) then 1 else 0) + credits l cur cs'
  end.

(** *** Sample data *)

(** Sample data for the worked instances: a plain object (one that
    converts to NaN) with the single field [key], and heaps that hold
    such objects from address 1 on. *)
Definition plain (fields : gmap string Value) : Obj := mkObj fields (Converts nan).
Definition record_x (v : Value) : Obj := plain {[ key := v ]}.
Definition one_record (o : Obj) : State := mkState {[ 1%positive := o ]} None.
Definition two_records (o1 o2 : Obj) : State :=
  mkState {[ 1%positive := o1; 2%positive := o2 ]} None.

(** Record 1 registered, its field [key] holding object 2, whose
    conversion to a number throws. *)
Definition throwing_x : State :=
  mkState {[ 1%positive := record_x (Object 2%positive);
             2%positive := mkObj ∅ ConversionThrows ]} (Some 1%positive).

(** * Properties *)

(** ** The two halves of the operation *)

Section ReadModifyWrite.
Implicit Types (st : State) (r l : loc) (o : Obj) (c : float) (h : gmap loc Obj).

Lemma obj_lookup_insert_eq o k v : <[k := v]> o !! k = Some v.
Proof. unfold lookup, obj_lookup, insert, obj_insert. simpl. apply lookup_insert_eq. Qed.

Lemma obj_lookup_insert_ne o k k' v : k ≠ k' → <[k := v]> o !! k' = o !! k'.
Proof.
  intros Hne. unfold lookup, obj_lookup, insert, obj_insert. simpl.
  by apply lookup_insert_ne.
Qed.

Lemma load_registered st r o :
  persist st = Some r → heap st !! r = Some o → load st = Some (r, x_of (heap st) o).
Proof.
  intros Hp Hr. unfold load, Local_New, Object_Get, x_of.
  rewrite Hp. simpl. rewrite Hr. reflexivity.
Qed.

Lemma load_throws_registered st r o :
  persist st = Some r → heap st !! r = Some o →
  load_throws st = NumberValue_throws (heap st) (default Undefined (o !! key)).
Proof.
  intros Hp Hr. unfold load_throws, Local_New, Object_Get.
  rewrite Hp. simpl. rewrite Hr. reflexivity.
Qed.

Lemma load_inv st r c :
  load st = Some (r, c) →
  persist st = Some r ∧ ∃ o, heap st !! r = Some o ∧ c = x_of (heap st) o.
Proof.
  unfold load, Local_New, Object_Get, x_of.
  destruct (persist st) as [p|]; simpl; [|discriminate].
  destruct (heap st !! p) as [o|] eqn:Ho; simpl; [|discriminate].
  intros [= <- <-]. eauto.
Qed.

Lemma store_lookup r c st o :
  heap st !! r = Some o →
  heap (store r c st) !! r = Some (<[key := Number (add42 c)]> o).
Proof.
  intros Hr. unfold store, Object_Set. simpl.
  rewrite lookup_alter_eq, Hr. reflexivity.
Qed.

Lemma store_lookup_ne r c st l :
  l ≠ r → heap (store r c st) !! l = heap st !! l.
Proof.
  intros Hne. unfold store, Object_Set. simpl.
  by rewrite lookup_alter_ne.
Qed.

Lemma store_lookup_None r c st :
  heap st !! r = None → heap (store r c st) !! r = None.
Proof.
  intros Hr. unfold store, Object_Set. simpl.
  rewrite lookup_alter_eq, Hr. reflexivity.
Qed.

Lemma x_of_insert h o d : x_of h (<[key := Number d]> o) = d.
Proof. unfold x_of. by rewrite obj_lookup_insert_eq. Qed.

Lemma field_lookup st r o :
  heap st !! r = Some o → ∀ k, field st r k = Some (default Undefined (o !! k)).
Proof. intros Hr k. unfold field, Object_Get. rewrite Hr. reflexivity. Qed.

Lemma store_same_but_x r c st : same_but_x r (heap st) (heap (store r c st)).
Proof.
  split; [|split].
  - intros l Hl. by apply store_lookup_ne.
  - intros o Ho. eexists. split; [by apply store_lookup|]. split; [done|].
    intros k Hk. by rewrite obj_lookup_insert_ne.
  - apply store_lookup_None.
Qed.

Lemma same_but_x_refl r h : same_but_x r h h.
Proof. split; [|split]; eauto. Qed.

Lemma same_but_x_trans r h1 h2 h3 :
  same_but_x r h1 h2 → same_but_x r h2 h3 → same_but_x r h1 h3.
Proof.
  intros (A1 & B1 & C1) (A2 & B2 & C2). split; [|split].
  - intros l Hl. rewrite A2, A1; auto.
  - intros o Ho. destruct (B1 o Ho) as (o1 & Ho1 & N1 & E1).
    destruct (B2 o1 Ho1) as (o2 & Ho2 & N2 & E2).
    exists o2. split; [done|]. split; [congruence|].
    intros k Hk. rewrite E2, E1; auto.
  - auto.
Qed.

Lemma store_is_Some r l c st :
  is_Some (heap st !! r) → is_Some (heap (store l c st) !! r).
Proof.
  intros [o Ho]. destruct (decide (r = l)) as [->|Hne].
  - eexists. by apply store_lookup.
  - exists o. by rewrite store_lookup_ne.
Qed.

(** The conversions of the objects are none of the operation's
    business. *)
Lemma same_but_x_numbers r h h' : same_but_x r h h' → same_numbers h h'.
Proof.
  intros (A & B & C) l. destruct (decide (l = r)) as [->|Hne]; [|by rewrite A].
  destruct (h !! r) as [o|] eqn:Ho.
  - destruct (B o eq_refl) as (o' & -> & N & _). simpl. by rewrite N.
  - by rewrite C.
Qed.

Lemma ToNumber_same_numbers h h' v : same_numbers h h' → ToNumber h' v = ToNumber h v.
Proof.
  intros Hn. destruct v as [| | | |l]; try done. simpl.
  specialize (Hn l). destruct (h' !! l), (h !! l); simpl in Hn; congruence.
Qed.

Lemma x_of_same_numbers h h' o : same_numbers h h' → x_of h' o = x_of h o.
Proof. intros Hn. unfold x_of, NumberValue. by rewrite (ToNumber_same_numbers h h'). Qed.

Lemma x_of_store r c st o : x_of (heap (store r c st)) o = x_of (heap st) o.
Proof. apply x_of_same_numbers, (same_but_x_numbers r), store_same_but_x. Qed.

End ReadModifyWrite.

(** ** Logs *)

Lemma events_of_app t tr tr' : events_of t (tr ++ tr') = events_of t tr ++ events_of t tr'.
Proof. unfold events_of. by rewrite filter_app, fmap_app. Qed.

Lemma events_of_one t th ev :
  events_of t [(th, ev)] = if decide (th = Spawned t) then [ev] else [].
Proof.
  unfold events_of. rewrite filter_cons, filter_nil. simpl.
  by repeat case_decide.
Qed.

Lemma events_of_worker t t' ev :
  events_of t [(Spawned t', ev)] = if decide (t' = t) then [ev] else [].
Proof. rewrite events_of_one. repeat case_decide; congruence. Qed.

Lemma events_of_host t ev : events_of t [(Host, ev)] = [].
Proof. rewrite events_of_one. by case_decide. Qed.

Lemma writes_app tr tr' : writes (tr ++ tr') = writes tr + writes tr'.
Proof. unfold writes. by rewrite filter_app, length_app. Qed.

Lemma writes_one th ev : writes [(th, ev)] = if is_write ev then 1 else 0.
Proof. by destruct ev. Qed.

Lemma count_app f l1 l2 : count f (l1 ++ l2) = count f l1 + count f l2.
Proof. unfold count. by rewrite List.filter_app, length_app. Qed.

Lemma writes_untouched tr : Forall (λ e, ¬ touches_engine e.2) tr → writes tr = 0.
Proof.
  unfold writes. induction 1 as [|[th ev] tr Hev _ IH]; [done|].
  rewrite filter_cons. destruct ev; simpl in *; done.
Qed.

Lemma writes_sleeps tr : Forall (λ e, e.2 = EvSleep) tr → writes tr = 0.
Proof.
  intros H. apply writes_untouched. eapply Forall_impl; [exact H|].
  intros [th ev] ->. by intros [].
Qed.

(** ** Double-precision additions of integers

    Binary64 holds every integer below 2^53, so adding 42 to one of
    them is exact as long as the sum stays below 2^53.  The arithmetic
    is the kernel's; its specification ([SpecFloat]) is followed through
    the alignment, the normalisation and the rounding of the sum. *)

Section ExactSums.
Local Open Scope Z_scope.

Lemma digits2_size p : digits2_pos p = Pos.size p.
Proof. induction p; simpl; congruence. Qed.

Lemma Zsize_sh n k : Zsize (sh n k) = Zsize n + Z.of_nat k.
Proof.
  unfold Zsize. induction k as [|k IH]; [simpl; lia|].
  change (sh n (S k)) with (xO (sh n k)). simpl Pos.size. rewrite Pos2Z.inj_succ, IH. lia.
Qed.

Lemma iter_pos_nat {A} (f : A -> A) p x :
  SpecFloat.iter_pos f p x = Nat.iter (Pos.to_nat p) f x.
Proof.
  revert x. induction p as [p IH|p IH|]; intros x; cbn [SpecFloat.iter_pos].
  - rewrite !IH, Pos2Nat.inj_xI.
    replace (S (2 * Pos.to_nat p))%nat with (Pos.to_nat p + Pos.to_nat p + 1)%nat by lia.
    rewrite !Nat.iter_add. reflexivity.
  - rewrite !IH, Pos2Nat.inj_xO.
    replace (2 * Pos.to_nat p)%nat with (Pos.to_nat p + Pos.to_nat p)%nat by lia.
    rewrite Nat.iter_add. reflexivity.
  - reflexivity.
Qed.

Lemma Pos_iter_sh n p : Pos.iter xO n p = sh n (Pos.to_nat p).
Proof. unfold sh. rewrite Pos2Nat.inj_iter. induction (Pos.to_nat p); simpl; congruence. Qed.

Lemma sh_sh n j k : sh (sh n j) k = sh n (k + j).
Proof. unfold sh. symmetry. apply Nat.iter_add. Qed.

Lemma shr_sh n j : forall k, (j <= k)%nat ->
  Nat.iter j shr_1 (Build_shr_record (Z.pos (sh n k)) false false) =
  Build_shr_record (Z.pos (sh n (k - j))) false false.
Proof.
  induction j as [|j IH]; intros k Hk; simpl.
  - f_equal. f_equal. f_equal. lia.
  - rewrite IH by lia. replace (k - j)%nat with (S (k - S j)) by lia. reflexivity.
Qed.

Lemma binary_round_exact n k :
  Zsize n <= 53 ->
  binary_round 53 1024 false (sh n k) (- Z.of_nat k) = canon n.
Proof.
  intros Hn. assert (0 < Zsize n) as Hpos by (unfold Zsize; lia).
  unfold binary_round, canon.
  rewrite digits2_size. fold (Zsize (sh n k)). rewrite Zsize_sh.
  replace (Zsize n + Z.of_nat k + - Z.of_nat k) with (Zsize n) by lia.
  assert (fexp 53 1024 (Zsize n) = Zsize n - 53) as Hfexp.
  { unfold fexp, emin. lia. }
  rewrite Hfexp.
  assert (forall m e, (m = sh n (Z.to_nat (53 - Zsize n)) /\ e = Zsize n - 53) \/
                      (exists j, m = sh n j /\ e = - Z.of_nat j /\ (Z.to_nat (53 - Zsize n) <= j)%nat) ->
     binary_round_aux 53 1024 false (Z.pos m) e loc_Exact =
     S754_finite false (sh n (Z.to_nat (53 - Zsize n))) (Zsize n - 53)) as Haux.
  { intros m e Hme.
    assert (Zdigits2 (Z.pos m) + e = Zsize n) as Hd.
    { cbn [Zdigits2]. rewrite digits2_size. fold (Zsize m).
      destruct Hme as [[-> ->]|(j & -> & -> & Hj)]; rewrite Zsize_sh; lia. }
    unfold binary_round_aux, shr_fexp. rewrite Hd, Hfexp.
    assert (shr (shr_record_of_loc (Z.pos m) loc_Exact) e (Zsize n - 53 - e) =
            (Build_shr_record (Z.pos (sh n (Z.to_nat (53 - Zsize n)))) false false, Zsize n - 53)) as ->.
    { destruct Hme as [[-> ->]|(j & -> & -> & Hj)].
      - rewrite Z.sub_diag. reflexivity.
      - unfold shr. simpl shr_record_of_loc.
        destruct (Zsize n - 53 - - Z.of_nat j) as [|p|p] eqn:Hp.
        + f_equal; [|lia]. f_equal. f_equal. f_equal. lia.
        + rewrite iter_pos_nat, shr_sh by lia. f_equal; [|lia].
          f_equal. f_equal. f_equal. lia.
        + lia. }
    cbn [round_nearest_even shr_m loc_of_shr_record].
    assert (Zdigits2 (Z.pos (sh n (Z.to_nat (53 - Zsize n)))) + (Zsize n - 53) = Zsize n) as Hd2.
    { cbn [Zdigits2]. rewrite digits2_size. fold (Zsize (sh n (Z.to_nat (53 - Zsize n)))).
      rewrite Zsize_sh. lia. }
    rewrite Hd2, Hfexp, Z.sub_diag. cbn [shr shr_record_of_loc shr_m].
    change (1024 - 53) with 971.
    destruct (Zsize n - 53 <=? 971) eqn:Hle; [reflexivity|]. apply Z.leb_gt in Hle. lia. }
  unfold shl_align.
  destruct (Zsize n - 53 - - Z.of_nat k) as [|p|p] eqn:Hp.
  - apply Haux. right. exists k. repeat split; lia.
  - apply Haux. right. exists k. repeat split; lia.
  - apply Haux. left. split; [|reflexivity]. rewrite Pos_iter_sh, sh_sh. f_equal. lia.
Qed.

Lemma sh_add a b k : (sh a k + sh b k)%positive = sh (a + b) k.
Proof. induction k as [|k IH]; [reflexivity|]. simpl. rewrite <- IH. reflexivity. Qed.

Lemma shl_align_sh n j e :
  - Z.of_nat j >= e ->
  fst (shl_align (sh n j) (- Z.of_nat j) e) = sh n (Z.to_nat (- e)).
Proof.
  intros He. unfold shl_align.
  destruct (e - - Z.of_nat j) as [|p|p] eqn:Hp; cbn [fst].
  - f_equal. lia.
  - lia.
  - rewrite Pos_iter_sh, sh_sh. f_equal. lia.
Qed.

Lemma SFadd_canon a b :
  Zsize a <= 53 -> Zsize b <= 53 -> Zsize (a + b) <= 53 ->
  SFadd 53 1024 (canon a) (canon b) = canon (a + b).
Proof.
  intros Ha Hb Hab.
  assert (0 < Zsize a) by (unfold Zsize; lia).
  assert (0 < Zsize b) by (unfold Zsize; lia).
  unfold canon at 1 2. cbn [SFadd cond_Zopp].
  replace (Zsize a - 53) with (- Z.of_nat (Z.to_nat (53 - Zsize a))) by lia.
  replace (Zsize b - 53) with (- Z.of_nat (Z.to_nat (53 - Zsize b))) by lia.
  rewrite !shl_align_sh by lia.
  set (e := Z.min _ _).
  rewrite <- Pos2Z.inj_add, sh_add. cbn [binary_normalize].
  replace e with (- Z.of_nat (Z.to_nat (- e))) at 2 by lia.
  apply binary_round_exact. exact Hab.
Qed.

Lemma Zsize_bound p : Z.pos p < 2 ^ 53 -> Zsize p <= 53.
Proof.
  intros Hp. unfold Zsize.
  pose proof (Pos.size_le p) as Hle.
  apply Pos2Z.pos_le_pos in Hle. rewrite Pos2Z.inj_pow in Hle.
  change (Z.pos p~0) with (2 * Z.pos p) in Hle.
  assert (2 ^ Z.pos (Pos.size p) < 2 ^ 54) as Hlt.
  { change (2 ^ 54) with (2 * 2 ^ 53). lia. }
  apply Z.pow_lt_mono_r_iff in Hlt; lia.
Qed.

Lemma Prim2SF_inj x y : Prim2SF x = Prim2SF y -> x = y.
Proof. intros H. rewrite <- (SF2Prim_Prim2SF x), <- (SF2Prim_Prim2SF y). f_equal. exact H. Qed.

Lemma Prim2SF_float_of_Z a :
  0 < a < 2 ^ 53 -> Prim2SF (float_of_Z a) = canon (Z.to_pos a).
Proof.
  intros Ha. unfold float_of_Z. rewrite of_uint63_spec.
  rewrite Uint63.of_Z_spec, Z.mod_small.
  2: { change Uint63.wB with (2 ^ 63). split; [lia|].
       apply Z.lt_trans with (2 ^ 53); [lia|reflexivity]. }
  destruct a as [|p|p]; try lia. cbn [binary_normalize Z.to_pos].
  apply (binary_round_exact p 0). apply Zsize_bound. lia.
Qed.

Lemma add42_exact a :
  0 <= a -> a + 42 < 2 ^ 53 -> add42 (float_of_Z a) = float_of_Z (a + 42).
Proof.
  intros H0 Hlt. destruct (Z.eq_dec a 0) as [->|Hne]; [reflexivity|].
  apply Prim2SF_inj. unfold add42. rewrite add_spec.
  rewrite !Prim2SF_float_of_Z by lia.
  change (Prim2SF 42) with (canon 42).
  unfold SF64add. rewrite SFadd_canon.
  - f_equal. lia.
  - apply Zsize_bound. lia.
  - apply Zsize_bound. reflexivity.
  - apply Zsize_bound. lia.
Qed.

(** Below 2^53 the additions do not round. *)
Lemma increments_exact k : forall n,
  0 <= n -> n + 42 * Z.of_nat k < 2 ^ 53 ->
  increments k (float_of_Z n) = float_of_Z (n + 42 * Z.of_nat k).
Proof.
  induction k as [|k IH]; intros n H0 Hk.
  - simpl. f_equal. lia.
  - change (increments (S k) (float_of_Z n)) with (add42 (increments k (float_of_Z n))).
    rewrite IH by lia. rewrite add42_exact by lia. f_equal. lia.
Qed.

End ExactSums.

(** ** Where the additions stop

    The specification of the kernel's addition is followed once more,
    now through a sum that does round. *)

Section Saturation.
Local Open Scope Z_scope.

Lemma sh_Z n k : Z.pos (sh n k) = Z.pos n * 2 ^ Z.of_nat k.
Proof.
  induction k as [|k IH]; [simpl; lia|].
  change (sh n (S k)) with (xO (sh n k)).
  change (Z.pos (sh n k)~0) with (2 * Z.pos (sh n k)).
  rewrite IH, Nat2Z.inj_succ, Z.pow_succ_r by lia. lia.
Qed.

Lemma Zsize_bounds p : 2 ^ (Zsize p - 1) <= Z.pos p < 2 ^ Zsize p.
Proof.
  unfold Zsize. split.
  - pose proof (Pos.size_le p) as Hle.
    apply Pos2Z.pos_le_pos in Hle. rewrite Pos2Z.inj_pow in Hle.
    change (Z.pos p~0) with (2 * Z.pos p) in Hle.
    replace (Z.pos (Pos.size p)) with (Z.succ (Z.pos (Pos.size p) - 1)) in Hle by lia.
    rewrite Z.pow_succ_r in Hle by lia. lia.
  - pose proof (Pos.size_gt p) as Hgt.
    apply Pos2Z.pos_lt_pos in Hgt. by rewrite Pos2Z.inj_pow in Hgt.
Qed.

Lemma Zsize_unique p d : 2 ^ (d - 1) <= Z.pos p < 2 ^ d -> Zsize p = d.
Proof.
  intros [Hlo Hhi]. pose proof (Zsize_bounds p) as [Hlo' Hhi'].
  assert (0 < Zsize p) by (unfold Zsize; lia).
  assert (0 < d).
  { destruct (Z.ltb_spec 0 d); [done|].
    destruct (Z.eq_dec d 0) as [->|]; [simpl in Hhi; lia|].
    rewrite Z.pow_neg_r in Hhi by lia. lia. }
  assert (2 ^ (d - 1) < 2 ^ Zsize p) as H1 by lia.
  assert (2 ^ (Zsize p - 1) < 2 ^ d) as H2 by lia.
  apply Z.pow_lt_mono_r_iff in H1; [|lia|lia].
  apply Z.pow_lt_mono_r_iff in H2; [|lia|lia]. lia.
Qed.

Lemma shr_1_nonneg m r s :
  0 <= m -> shr_1 (Build_shr_record m r s) = Build_shr_record (Z.div2 m) (Z.odd m) (r || s).
Proof. intros Hm. destruct m as [|[p|p|]|p]; try reflexivity; lia. Qed.

(** Shifting [j + 1] bits out keeps the quotient and, as rounding bit,
    the last bit that left. *)
Lemma shr_iter M j :
  0 <= M ->
  exists s,
    Nat.iter (S j) shr_1 (Build_shr_record M false false) =
    Build_shr_record (M / 2 ^ Z.of_nat (S j)) (Z.odd (M / 2 ^ Z.of_nat j)) s.
Proof.
  intros HM. induction j as [|j (s & IH)].
  - exists false. change (Nat.iter 1 shr_1 ?x) with (shr_1 x).
    rewrite shr_1_nonneg by done.
    rewrite Z.div2_div. change (2 ^ Z.of_nat 1) with 2. change (2 ^ Z.of_nat 0) with 1.
    by rewrite Z.div_1_r.
  - change (Nat.iter (S (S j)) shr_1 ?x) with (shr_1 (Nat.iter (S j) shr_1 x)).
    rewrite IH. eexists. rewrite shr_1_nonneg by (apply Z.div_pos; lia).
    rewrite Z.div2_div, Z.div_div by lia.
    replace (2 ^ Z.of_nat (S (S j))) with (2 ^ Z.of_nat (S j) * 2); [reflexivity|].
    rewrite (Nat2Z.inj_succ (S j)), Z.pow_succ_r by lia. lia.
Qed.

(** From 2^59 on the doubles are 128 apart or more, so a sum with 42
    rounds back to the double it started from. *)
Lemma SFadd_saturated m e :
  Zsize m = 53 -> 7 <= e <= 971 ->
  SFadd 53 1024 (S754_finite false m e) (canon 42) = S754_finite false m e.
Proof.
  intros Hm He.
  pose proof (Zsize_bounds m) as Hmb. rewrite Hm in Hmb.
  change (2 ^ (53 - 1)) with (2 ^ 52) in Hmb.
  change (canon 42) with (S754_finite false (sh 42 47) (-47)).
  cbn [SFadd cond_Zopp]. rewrite Z.min_r by lia.
  set (K := Z.to_nat (e + 47)).
  assert (fst (shl_align m e (-47)) = sh m K) as ->.
  { unfold shl_align. destruct (-47 - e) as [|p|p] eqn:Hp; try lia.
    cbn [fst]. rewrite Pos_iter_sh. f_equal. lia. }
  change (fst (shl_align (sh 42 47) (-47) (-47))) with (sh 42 47).
  rewrite <- Pos2Z.inj_add. set (M := (sh m K + sh 42 47)%positive).
  assert (Z.pos M = Z.pos m * 2 ^ (e + 47) + 42 * 2 ^ 47) as HM.
  { unfold M. rewrite Pos2Z.inj_add, !sh_Z. unfold K. rewrite Z2Nat.id by lia. reflexivity. }
  assert (2 ^ 54 <= 2 ^ (e + 47)) as HK by (apply Z.pow_le_mono_r; lia).
  assert (0 < 2 ^ (e + 47 - 1)) as HK1 by (apply Z.pow_pos_nonneg; lia).
  assert (2 ^ (e + 47) = 2 * 2 ^ (e + 47 - 1)) as HK2.
  { rewrite <- Z.pow_succ_r by lia. f_equal. lia. }
  assert (42 * 2 ^ 47 < 2 ^ (e + 47 - 1)) as Hq.
  { change (2 ^ 54) with (2 * 2 ^ 53) in HK. assert (42 * 2 ^ 47 < 2 ^ 53) by reflexivity. lia. }
  assert (Zsize M = 53 + (e + 47)) as HsM.
  { apply Zsize_unique. rewrite HM.
    replace (53 + (e + 47) - 1) with (52 + (e + 47)) by lia.
    rewrite (Z.pow_add_r 2 52), (Z.pow_add_r 2 53) by lia.
    generalize dependent (2 ^ (e + 47)). intros P HM HK HK2.
    assert (2 ^ 52 * P <= Z.pos m * P) by (apply Z.mul_le_mono_nonneg_r; lia).
    assert ((Z.pos m + 1) * P <= 2 ^ 53 * P) by (apply Z.mul_le_mono_nonneg_r; lia).
    lia. }
  assert (forall x, x = e -> fexp 53 1024 (53 + x) = e) as Hfexp.
  { intros x ->. unfold fexp, emin. lia. }
  cbn [binary_normalize]. unfold binary_round.
  rewrite digits2_size. fold (Zsize M). rewrite HsM.
  replace (53 + (e + 47) + -47) with (53 + e) by lia. rewrite Hfexp by done.
  assert (shl_align M (-47) e = (M, -47)) as ->.
  { unfold shl_align. destruct (e - -47) as [|p|p] eqn:Hp; try lia; reflexivity. }
  unfold binary_round_aux, shr_fexp. cbn [Zdigits2]. rewrite digits2_size.
  fold (Zsize M). rewrite HsM.
  replace (53 + (e + 47) + -47) with (53 + e) by lia. rewrite Hfexp by done.
  unfold shr. cbn [shr_record_of_loc].
  destruct (e - -47) as [|p|p] eqn:Hp; try lia.
  rewrite iter_pos_nat.
  destruct (shr_iter (Z.pos M) (Pos.to_nat p - 1)) as (s & Hs); [lia|].
  replace (S (Pos.to_nat p - 1)) with (Pos.to_nat p) in Hs by lia.
  rewrite Hs. clear Hs.
  replace (Z.of_nat (Pos.to_nat p)) with (e + 47) by lia.
  replace (Z.of_nat (Pos.to_nat p - 1)) with (e + 47 - 1) by lia.
  assert (Z.pos M / 2 ^ (e + 47) = Z.pos m) as ->.
  { rewrite HM, Z.div_add_l by lia. rewrite Z.div_small by lia. lia. }
  assert (Z.pos M / 2 ^ (e + 47 - 1) = 2 * Z.pos m) as ->.
  { rewrite HM, HK2.
    replace (Z.pos m * (2 * 2 ^ (e + 47 - 1))) with (2 * Z.pos m * 2 ^ (e + 47 - 1)) by lia.
    rewrite Z.div_add_l by lia. rewrite Z.div_small by lia. lia. }
  rewrite Z.odd_mul. cbn [Z.odd andb shr_m].
  assert (round_nearest_even (Z.pos m) (loc_of_shr_record (Build_shr_record (Z.pos m) false s))
          = Z.pos m) as ->.
  { by destruct s. }
  cbn [Zdigits2]. rewrite digits2_size. fold (Zsize m). rewrite Hm.
  replace (-47 + Z.pos p) with e by lia.
  rewrite Hfexp by done. rewrite Z.sub_diag. cbn [shr_record_of_loc shr_m].
  change (1024 - 53) with 971.
  destruct (e <=? 971) eqn:Hle; [reflexivity|]. apply Z.leb_gt in Hle. lia.
Qed.

Lemma add42_saturated d m e :
  Prim2SF d = S754_finite false m e -> 7 <= e -> add42 d = d.
Proof.
  intros Hd He. pose proof (Prim2SF_valid d) as Hv. rewrite Hd in Hv.
  unfold valid_binary, bounded, canonical_mantissa in Hv.
  apply andb_prop in Hv as [Hc Hb].
  apply Z.leb_le in Hb. change (emax - prec) with 971 in Hb.
  apply Z.eqb_eq in Hc. rewrite digits2_size in Hc. fold (Zsize m) in Hc.
  unfold fexp, emin in Hc. change prec with 53 in Hc. change emax with 1024 in Hc.
  assert (Zsize m = 53) as Hm by lia.
  apply Prim2SF_inj. unfold add42. rewrite add_spec, Hd.
  change (Prim2SF 42) with (canon 42). unfold SF64add.
  apply SFadd_saturated; [done|lia].
Qed.

End Saturation.

(** ** mutate01 *)

Section Synchronous.
Implicit Types (st : State) (r l : loc) (o : Obj).

Lemma increments_shift k v : increments k (add42 v) = add42 (increments k v).
Proof. unfold increments. induction k as [|k IH]; simpl; [done|]. by rewrite IH. Qed.

Lemma increments_nan k : increments k nan = nan.
Proof. unfold increments. induction k as [|k IH]; simpl; [done|]. by rewrite IH. Qed.

Lemma increments_fixed d k : add42 d = d → increments k d = d.
Proof.
  intros Hd. unfold increments. induction k as [|k IH]; simpl; [done|].
  by rewrite IH.
Qed.

(** [mutate()] on a registered record: the [Set] is done, whether or
    not the conversion threw. *)
Lemma Mutate_registered st r o :
  persist st = Some r → heap st !! r = Some o →
  V1.Mutate st =
  (if load_throws st then Threw else Returned Undefined) (store r (x_of (heap st) o) st).
Proof.
  intros Hp Hr. unfold V1.Mutate. rewrite (load_registered st r o Hp Hr).
  by destruct (load_throws st).
Qed.

Lemma calls_Mutate st r o cs :
  persist st = Some r → heap st !! r = Some o →
  V1.calls (V1.CallMutate :: cs) st = V1.calls cs (store r (x_of (heap st) o) st).
Proof.
  intros Hp Hr. simpl. rewrite (Mutate_registered st r o Hp Hr).
  by destruct (load_throws st).
Qed.

Lemma Mutate_inv st st' :
  (∃ rv, V1.Mutate st = Returned rv st') ∨ V1.Mutate st = Threw st' →
  ∃ r o, persist st = Some r ∧ heap st !! r = Some o ∧
         st' = store r (x_of (heap st) o) st.
Proof.
  unfold V1.Mutate. destruct (load st) as [[r c]|] eqn:Hl.
  - apply load_inv in Hl as (Hp & o & Ho & ->).
    intros H. exists r, o. split; [done|]. split; [done|].
    destruct (load_throws st); destruct H as [[rv H]|H]; congruence.
  - intros [[rv H]|H]; discriminate.
Qed.

(** [k] calls of [mutate()] on a registered record. *)
Lemma Mutate_k k : ∀ st r o,
  persist st = Some r → heap st !! r = Some o →
  ∃ st' o',
    V1.calls (replicate k V1.CallMutate) st = Some st' ∧
    persist st' = Some r ∧
    same_but_x r (heap st) (heap st') ∧
    heap st' !! r = Some o' ∧
    x_of (heap st') o' = increments k (x_of (heap st) o) ∧
    (0 < k → o' !! key = Some (Number (increments k (x_of (heap st) o)))).
Proof.
  induction k as [|k IH]; intros st r o Hp Hr.
  - exists st, o. simpl. split; [done|]. split; [done|].
    split; [apply same_but_x_refl|]. split; [done|]. split; [done|lia].
  - cbn [replicate]. rewrite (calls_Mutate st r o _ Hp Hr).
    pose proof (store_lookup r (x_of (heap st) o) st o Hr) as Hr1.
    destruct (IH (store r (x_of (heap st) o) st) r _ Hp Hr1)
      as (st' & o' & Hc & Hp' & Hs & Hr' & Hx & Hk).
    rewrite x_of_insert in Hx, Hk.
    exists st', o'. split; [done|]. split; [done|].
    split; [eapply same_but_x_trans; [apply store_same_but_x|exact Hs]|].
    split; [done|].
    change (increments (S k) (x_of (heap st) o))
      with (add42 (increments k (x_of (heap st) o))).
    rewrite <- increments_shift. split; [done|]. intros _.
    destruct k as [|k]; [|apply Hk; lia].
    simpl in Hc. injection Hc as <-.
    rewrite Hr1 in Hr'. injection Hr' as <-.
    by rewrite obj_lookup_insert_eq.
Qed.

End Synchronous.

(** ** Claims about mutate01 *)

(** C1 (as amended): for every record [r] of the heap and every [k],
    [setup(r)] followed by [k] calls of [mutate()] runs to the end and
    leaves the numeric value of [r.x] at the result of [k] successive
    double-precision additions of 42 to its value at [setup]; from the
    first call on the field holds that number.  When the value at
    [setup] is an integer [n >= 0] with [n + 42*k < 2^53], that result
    is [n + 42*k]. *)
Theorem setup_then_mutate (st : State) (r : loc) (o : Obj) (k : nat) :
  heap st !! r = Some o →
  ∃ st' o',
    V1.calls (V1.CallSetup (Object r) :: replicate k V1.CallMutate) st = Some st' ∧
    heap st' !! r = Some o' ∧
    x_of (heap st') o' = increments k (x_of (heap st) o) ∧
    (0 < k → o' !! key = Some (Number (increments k (x_of (heap st) o)))) ∧
    (∀ n : Z, x_of (heap st) o = float_of_Z n → (0 ≤ n)%Z →
       (n + 42 * Z.of_nat k < 2 ^ 53)%Z →
       x_of (heap st') o' = float_of_Z (n + 42 * Z.of_nat k)).
Proof.
  intros Hr. simpl.
  destruct (Mutate_k k (mkState (heap st) (Some r)) r o eq_refl Hr)
    as (st' & o' & Hc & _ & _ & Hr' & Hx & Hk).
  exists st', o'. split; [done|]. split; [done|]. split; [done|]. split; [done|].
  intros n Hn H0 Hle. simpl in Hx. rewrite Hx, Hn. by apply increments_exact.
Qed.

Lemma setup_then_mutate_witness :
  ∃ st' o',
    V1.calls (V1.CallSetup (Object 1%positive) :: replicate 2 V1.CallMutate)
      (one_record (record_x (Number 3))) = Some st' ∧
    heap st' !! 1%positive = Some o' ∧
    x_of (heap st') o' =
      increments 2 (x_of (heap (one_record (record_x (Number 3)))) (record_x (Number 3))) ∧
    (0 < 2 →
     o' !! key =
       Some (Number (increments 2
               (x_of (heap (one_record (record_x (Number 3)))) (record_x (Number 3)))))) ∧
    (∀ n : Z,
       x_of (heap (one_record (record_x (Number 3)))) (record_x (Number 3)) = float_of_Z n →
       (0 ≤ n)%Z → (n + 42 * Z.of_nat 2 < 2 ^ 53)%Z →
       x_of (heap st') o' = float_of_Z (n + 42 * Z.of_nat 2)).
Proof.
  apply (setup_then_mutate (one_record (record_x (Number 3))) 1%positive (record_x (Number 3)) 2).
  reflexivity.
Defined.

(** C1 as stated fails: from [x = 1e17] two calls of [mutate()] leave
    [x] at 10^17 + 96, which is neither the double [1e17 + 42*2] nor the
    integer 10^17 + 84. *)
Lemma sum_not_exact :
  ∃ st',
    V1.calls (V1.CallSetup (Object 1%positive) :: replicate 2 V1.CallMutate)
      (one_record (record_x (Number 1e17))) = Some st' ∧
    field st' 1%positive key = Some (Number 100000000000000096) ∧
    Number 100000000000000096 ≠ Number (1e17 + 42 * 2) ∧
    integral_value 1e17 = Some (10 ^ 17)%Z ∧
    integral_value 100000000000000096 = Some (10 ^ 17 + 96)%Z.
Proof.
  eexists. split; [vm_compute; reflexivity|].
  split; [vm_compute; reflexivity|].
  split; [vm_compute; congruence|].
  split; vm_compute; reflexivity.
Qed.

(** C4 (as amended): a registered record without field ["x"] reads as
    [undefined], whose numeric value is NaN; one operation (and every
    further one) leaves ["x"] at NaN. *)
Theorem missing_field_nan (st : State) (r : loc) (o : Obj) (k : nat) :
  persist st = Some r → heap st !! r = Some o → o !! key = None →
  ∃ st',
    V1.calls (replicate (S k) V1.CallMutate) st = Some st' ∧
    field st' r key = Some (Number nan).
Proof.
  intros Hp Hr Hx.
  destruct (Mutate_k (S k) st r o Hp Hr) as (st' & o' & Hc & _ & _ & Hr' & _ & Hk).
  exists st'. split; [done|].
  rewrite (field_lookup st' r o' Hr'), Hk by lia.
  unfold x_of. rewrite Hx. simpl default.
  change (NumberValue (heap st) Undefined) with nan. by rewrite increments_nan.
Qed.

Lemma missing_field_nan_witness :
  ∃ st',
    V1.calls (replicate 1 V1.CallMutate)
      (mkState {[ 1%positive := plain ∅ ]} (Some 1%positive)) = Some st' ∧
    field st' 1%positive key = Some (Number nan).
Proof.
  apply (missing_field_nan (mkState {[ 1%positive := plain ∅ ]} (Some 1%positive))
           1%positive (plain ∅) 0);
    reflexivity.
Defined.

(** C4 as stated fails: on the empty object one [mutate()] leaves ["x"]
    at NaN, not at 42. *)
Lemma missing_field_not_42 :
  ∃ st',
    V1.calls [V1.CallSetup (Object 1%positive); V1.CallMutate] (one_record (plain ∅))
      = Some st' ∧
    field st' 1%positive key = Some (Number nan) ∧
    field st' 1%positive key ≠ Some (Number 42).
Proof.
  eexists. split; [vm_compute; reflexivity|].
  split; vm_compute; congruence.
Qed.

(** ** Registration *)

Lemma ToObject_fresh v h l h' :
  ToObject v h = (Some l, h') → boxed v → h !! l = None ∧ h' = <[l := wrapper v]> h.
Proof.
  destruct v; simpl; try done.
  all: intros [= <- <-] _; split; [|done].
  all: apply not_elem_of_dom, is_fresh.
Qed.

(** [ToObject] changes no object that is there. *)
Lemma ToObject_preserves v h o h' l x :
  ToObject v h = (o, h') → h !! l = Some x → h' !! l = Some x.
Proof.
  destruct v; simpl; intros [= <- <-] Hl; try done.
  all: rewrite lookup_insert_ne; [done|].
  all: intros <-; pose proof (is_fresh (dom h)) as Hf.
  all: apply not_elem_of_dom in Hf; congruence.
Qed.

(** ** Schedules *)

Section ExecFacts.
Context {S : Type}.
Variable Start : Value → S → Outcome S.
Variable worker_step : nat → S → Step S.
Variable locker : S → option Thread.
Variable with_locker : option Thread → S → S.
Abbreviation act := (Sched.act Start worker_step locker with_locker).
Abbreviation exec := (Sched.exec Start worker_step locker with_locker).

Lemma exec_app sched1 sched2 s :
  exec (sched1 ++ sched2) s =
  '(tr1, s1) ← exec sched1 s; '(tr2, s2) ← exec sched2 s1; Some (tr1 ++ tr2, s2).
Proof.
  revert s. induction sched1 as [|a sched1 IH]; intros s; simpl.
  - destruct (exec sched2 s) as [[tr2 s2]|]; reflexivity.
  - destruct (act a s) as [[tr1 s1]|]; simpl; [|done].
    rewrite IH. destruct (exec sched1 s1) as [[tr1' s1']|]; simpl; [|done].
    destruct (exec sched2 s1') as [[tr2 s2]|]; simpl; [|done].
    by rewrite (assoc_L (++)).
Qed.

(** A property of (log, state) pairs that every allowed action keeps
    holds along every schedule of allowed actions. *)
Lemma exec_invariant (A : Action → Prop) (P : Trace → S → Prop) :
  (∀ tr s a tr' s', A a → P tr s → act a s = Some (tr', s') → P (tr ++ tr') s') →
  ∀ sched tr0 s0 tr s,
    Forall A sched → P tr0 s0 → exec sched s0 = Some (tr, s) → P (tr0 ++ tr) s.
Proof.
  intros Hstep. induction sched as [|a sched IH]; intros tr0 s0 tr s HA HP He; simpl in He.
  - injection He as <- <-. by rewrite (right_id_L [] (++)).
  - apply Forall_cons in HA as [Ha HA].
    destruct (act a s0) as [[tr1 s1]|] eqn:Hact; simpl in He; [|done].
    destruct (exec sched s1) as [[tr2 s2]|] eqn:Hex; simpl in He; [|done].
    injection He as <- <-. rewrite (assoc_L (++)).
    eapply IH; eauto.
Qed.

Lemma exec_Run t sched s ev s' :
  worker_step t s = Stepped ev s' →
  exec (Run t :: sched) s = '(tr, s2) ← exec sched s'; Some ((Spawned t, ev) :: tr, s2).
Proof. intros H. simpl. rewrite H. simpl. by destruct (exec sched s') as [[??]|]. Qed.

Lemma exec_HostStart arg sched s :
  exec (HostStart arg :: sched) s =
  match Start arg s with
  | Returned _ s' | Threw s' => exec sched s'
  | Fault => None
  end.
Proof.
  simpl. destruct (Start arg s) as [rv s'|s'|]; simpl; [| |done].
  all: destruct (exec sched s') as [[??]|]; done.
Qed.

Lemma exec_HostUnlock sched s :
  locker s = Some Host →
  exec (HostUnlock :: sched) s =
  '(tr, s2) ← exec sched (with_locker None s); Some ((Host, EvRelease) :: tr, s2).
Proof.
  intros H. simpl. rewrite bool_decide_true by done. simpl.
  by destruct (exec sched _) as [[??]|].
Qed.

(** If every allowed action goes through and keeps the property, every
    schedule of allowed actions runs to its end. *)
Lemma exec_total (A : Action → Prop) (P : Trace → S → Prop) :
  (∀ tr s a, A a → P tr s → ∃ tr' s', act a s = Some (tr', s') ∧ P (tr ++ tr') s') →
  ∀ sched tr0 s0,
    Forall A sched → P tr0 s0 → ∃ tr s, exec sched s0 = Some (tr, s) ∧ P (tr0 ++ tr) s.
Proof.
  intros Hstep. induction sched as [|a sched IH]; intros tr0 s0 HA HP.
  - exists [], s0. split; [done|]. by rewrite (right_id_L [] (++)).
  - apply Forall_cons in HA as [Ha HA].
    destruct (Hstep tr0 s0 a Ha HP) as (tr1 & s1 & Hact & HP1).
    destruct (IH _ _ HA HP1) as (tr2 & s2 & He & HP2).
    exists (tr1 ++ tr2), s2. simpl. rewrite Hact. simpl. rewrite He. simpl.
    split; [done|]. by rewrite (assoc_L (++)).
Qed.

(** Every [start] call that returns or throws adds one worker. *)
Lemma exec_workers (size : S → nat) :
  (∀ a s tr' s', act a s = Some (tr', s') →
                 size s' = size s + (if is_start a then 1 else 0)) →
  ∀ sched s tr s', exec sched s = Some (tr, s') → size s' = size s + starts sched.
Proof.
  intros Hact. induction sched as [|a sched IH]; intros s tr s' He; simpl in He.
  - injection He as <- <-. unfold starts. simpl. lia.
  - destruct (act a s) as [[tr1 s1]|] eqn:Ha; simpl in He; [|done].
    destruct (exec sched s1) as [[tr2 s2]|] eqn:He2; simpl in He; [|done].
    injection He as <- <-. rewrite (IH _ _ _ He2), (Hact _ _ _ _ Ha).
    unfold starts. simpl. destruct (is_start a); simpl; lia.
Qed.

End ExecFacts.

(** ** mutate03 *)

(** Case analysis on an action of mutate03 that went through. *)
Ltac act_cases H :=
  simpl in H; unfold V3.mutate, V3.Start, V3.with_locker, HandleScope in H;
  repeat match type of H with
    | context [V3.workers ?s !! ?t] =>
        let Hw := fresh "Hw" in
        destruct (V3.workers s !! t) as [[[| |[|tg cu|tg cu]] en]|] eqn:Hw; simpl in H
    | context [bool_decide ?P] =>
        let Hbd := fresh "Hbd" in
        destruct (bool_decide P) eqn:Hbd;
        [apply bool_decide_eq_true in Hbd|apply bool_decide_eq_false in Hbd]; simpl in H
    | context [match V3.locker ?s with _ => _ end] =>
        let Hl := fresh "Hlk" in destruct (V3.locker s) eqn:Hl; simpl in H
    | context [load ?st] =>
        let Hl := fresh "Hld" in destruct (load st) as [[? ?]|] eqn:Hl; simpl in H
    | context [ToObject ?v ?h] =>
        let Ho := fresh "Hto" in destruct (ToObject v h) as [[?|] ?] eqn:Ho; simpl in H
    end;
  simplify_eq/=.

Section Locked.
Implicit Types (s : V3.Sys) (t : nat) (tr : Trace) (w : V3.Worker).

Lemma insert_worker_lookup (ws : list V3.Worker) t t' w w' :
  ws !! t = Some w →
  <[t := w']> ws !! t' = (if decide (t = t') then Some w' else ws !! t').
Proof.
  intros Hw. rewrite list_lookup_insert. apply lookup_lt_Some in Hw.
  repeat case_decide; naive_solver.
Qed.

Lemma lock_inv_init st : lock_inv (V3.at_load st).
Proof. split; simpl; intros t; [intros w|]; by rewrite ?lookup_nil. Qed.

Lemma lock_inv_act a s tr' s' :
  lock_inv s → act3 a s = Some (tr', s') → lock_inv s'.
Proof.
  intros Hinv Hact. destruct a as [arg| | |t]; act_cases Hact; try exact Hinv.
  3,4: destruct Hinv as [H1 H2]; split; simpl;
       [ intros t' w' Hw' Hcs; pose proof (H1 _ _ Hw' Hcs); congruence
       | by intros t' ? ].
  all: destruct Hinv as [H1 H2]; try pose proof (H1 _ _ Hw) as Ht; simpl in *.
  all: split; simpl.
  all: try (intros t' w' Hw' Hcs; first
    [ apply lookup_snoc_Some in Hw' as [[_ Hw']|[_ <-]]
    | rewrite (insert_worker_lookup _ _ _ _ _ Hw) in Hw'; case_decide; simplify_eq/= ];
    naive_solver).
  all: intros t' Ht'; try pose proof (H2 _ Ht') as (w' & Hw' & Hcs).
  all: first
    [ exists w'; split; [by apply lookup_app_l_Some|done]
    | rewrite (insert_worker_lookup _ _ _ _ _ Hw); case_decide; naive_solver ].
Qed.

Lemma join_wake_log_snoc ops op :
  mjoin (V3.wake_log <$> (ops ++ [op])) = mjoin (V3.wake_log <$> ops) ++ V3.wake_log op.
Proof. rewrite fmap_app, join_app. reflexivity. Qed.

Lemma shape_inv_init st : shape_inv [] (V3.at_load st).
Proof. intros t. simpl. by rewrite ?lookup_nil. Qed.

Lemma shape_inv_act a s tr tr' s' :
  shape_inv tr s → act3 a s = Some (tr', s') → shape_inv (tr ++ tr') s'.
Proof.
  intros Hinv Hact.
  destruct a as [arg| | |t]; act_cases Hact; rewrite ?(right_id_L [] (++)); try exact Hinv.
  1,2: intros t; specialize (Hinv t); simpl;
       destruct (V3.workers s !! t) as [w|] eqn:Hw;
       [ by rewrite (lookup_app_l_Some _ _ _ _ Hw)
       | apply lookup_ge_None in Hw; rewrite lookup_app_r by done;
         destruct (t - length (V3.workers s)) as [|n] eqn:Hn; simpl;
         [ exists []; by rewrite Hinv | done ] ].
  1,2: intros t; specialize (Hinv t); simpl;
       by rewrite events_of_app, events_of_host, (right_id_L [] (++)).
  all: intros t'; pose proof (Hinv t') as Ht'; simpl;
       rewrite (insert_worker_lookup _ _ _ _ _ Hw), events_of_app, events_of_worker;
       case_decide; subst; rewrite ?(right_id_L [] (++)); [|exact Ht'];
       rewrite Hw in Ht'; destruct Ht' as (ops & -> & Hn); simpl in *.
  - exists ops. by rewrite <- (assoc_L (++)).
  - exists ops. rewrite <- (assoc_L (++)). split; [done|lia].
  - exists ops. by rewrite <- (assoc_L (++)).
  - exists ops. by rewrite <- (assoc_L (++)).
  - exists (ops ++ [(tg, cu)]). rewrite join_wake_log_snoc, <- (assoc_L (++)), length_app.
    simpl. split; [by rewrite ?(right_id_L [] (++))|lia].
Qed.

Lemma replay_app h tr tr' :
  V3.replay h (tr ++ tr') = h' ← V3.replay h tr; V3.replay h' tr'.
Proof.
  revert h. induction tr as [|e tr IH]; intros h; simpl; [done|].
  destruct (V3.replay_event h e); simpl; [apply IH|done].
Qed.

Lemma replay_act a s tr tr' s' :
  lock_inv s → V3.replay (Some Host) tr = Some (V3.locker s) →
  act3 a s = Some (tr', s') →
  V3.replay (Some Host) (tr ++ tr') = Some (V3.locker s').
Proof.
  intros [H1 _] Hrep Hact. rewrite replay_app, Hrep. simpl.
  destruct a as [arg| | |t]; act_cases Hact; try done.
  all: try pose proof (H1 _ _ Hw eq_refl) as Ht; simpl in *.
  all: unfold V3.replay_event; simpl; rewrite ?Hbd, ?Hlk, ?Ht; simpl; try done.
  all: by rewrite decide_True.
Qed.

(** What a step of a worker of mutate03 is, phase by phase. *)
Lemma V3_step_inv t s ev s' :
  V3.mutate t s = Stepped ev s' →
  ∃ w, V3.workers s !! t = Some w ∧
    match V3.phase w with
    | V3.Sleeping => ev = EvSleep ∧ V3.world s' = V3.world s ∧ V3.locker s' = V3.locker s
    | V3.AcquiringLock =>
        ev = EvAcquire ∧ V3.world s' = V3.world s ∧
        V3.locker s = None ∧ V3.locker s' = Some (Spawned t)
    | V3.InCriticalSection V3.Entered =>
        (∃ l c, ev = EvRead l c ∧ load (V3.world s) = Some (l, c)) ∧
        V3.world s' = V3.world s ∧ V3.locker s' = V3.locker s
    | V3.InCriticalSection (V3.Loaded l c) =>
        ev = EvWrite l c ∧ V3.world s' = store l c (V3.world s) ∧
        V3.locker s' = V3.locker s
    | V3.InCriticalSection (V3.Stored _ _) =>
        ev = EvRelease ∧ V3.world s' = V3.world s ∧ V3.locker s' = None
    end.
Proof.
  unfold V3.mutate. destruct (V3.workers s !! t) as [w|]; [|done].
  intros H. exists w. split; [done|].
  destruct (V3.phase w) as [| |[|l c|l c]].
  - by injection H as <- <-.
  - destruct (V3.locker s); [done|]. by injection H as <- <-.
  - destruct (HandleScope _ _); [|done].
    destruct (load (V3.world s)) as [[l c]|]; [|done].
    injection H as <- <-. split; [by exists l, c|done].
  - by injection H as <- <-.
  - by injection H as <- <-.
Qed.

(** A step changes the heap only by the [Set] of a write. *)
Lemma V3_act_world a s tr' s' :
  act3 a s = Some (tr', s') →
  (∃ t l c, a = Run t ∧ tr' = [(Spawned t, EvWrite l c)] ∧
            V3.world s' = store l c (V3.world s) ∧
            ∃ w, V3.workers s !! t = Some w ∧
                 V3.phase w = V3.InCriticalSection (V3.Loaded l c)) ∨
  (writes tr' = 0 ∧ Forall (λ e, ¬ touches_engine e.2 ∨
                                 ∃ l c, e.2 = EvRead l c ∧ load (V3.world s) = Some (l, c)) tr' ∧
   ((∃ arg, a = HostStart arg) ∨ V3.world s' = V3.world s)).
Proof.
  intros Hact. destruct a as [arg| | |t]; simpl in Hact.
  - right. split; [|split; [|by eauto]].
    all: destruct (V3.Start arg s); by simplify_eq.
  - right. unfold V3.with_locker in Hact. case_bool_decide; simplify_eq; simpl.
    all: split; [by rewrite ?writes_one|split; [|by right]];
         first [by apply Forall_nil|apply Forall_singleton; left; by intros []].
  - right. unfold V3.with_locker in Hact. destruct (V3.locker s); simplify_eq; simpl.
    all: split; [by rewrite ?writes_one|split; [|by right]];
         first [by apply Forall_nil|apply Forall_singleton; left; by intros []].
  - destruct (V3.mutate t s) as [ev s1| | |] eqn:Hstep; simplify_eq.
    2,3: right; split; [done|split; [constructor|by right]].
    apply V3_step_inv in Hstep as (w & Hw & Hph).
    destruct (V3.phase w) as [| |[|l c|l c]] eqn:Hp.
    + destruct Hph as (-> & -> & _). right.
      split; [by rewrite writes_one|split; [|by right]]. apply Forall_singleton. left. by intros [].
    + destruct Hph as (-> & -> & _). right.
      split; [by rewrite writes_one|split; [|by right]]. apply Forall_singleton. left. by intros [].
    + destruct Hph as ((l & c & -> & Hld) & -> & _). right.
      split; [by rewrite writes_one|split; [|by right]]. apply Forall_singleton. right. by exists l, c.
    + destruct Hph as (-> & -> & _). left. exists t, l, c.
      split; [done|]. split; [done|]. split; [done|]. by exists w.
    + destruct Hph as (-> & -> & _). right.
      split; [by rewrite writes_one|split; [|by right]]. apply Forall_singleton. left. by intros [].
Qed.

Lemma serial_inv_act r v0 a s tr tr' s' :
  no_start a →
  lock_inv s → serial_inv r v0 tr s →
  act3 a s = Some (tr', s') →
  serial_inv r v0 (tr ++ tr') s'.
Proof.
  intros Ha [H1 H2] (Hp & (o & Ho & Hx & Hn) & HL) Hact.
  destruct a as [arg| | |t]; [done| | |].
  1,2: act_cases Hact; rewrite ?(right_id_L [] (++)); unfold serial_inv; simpl;
       rewrite ?writes_app, ?writes_one; cbn [is_write]; rewrite ?Nat.add_0_r;
       (split; [done|split; [by exists o|done]]).
  assert (∀ t' w l c,
    (∀ l c, V3.phase w = V3.InCriticalSection (V3.Loaded l c) →
            l = r ∧ c = increments (writes tr) v0) →
    ∀ w0, <[t := w]> (V3.workers s) !! t' = Some w0 →
    V3.phase w0 = V3.InCriticalSection (V3.Loaded l c) →
    l = r ∧ c = increments (writes tr) v0) as Hother.
  { intros t' w l c Hnew w0 Hw0 Hph.
    apply list_lookup_insert_Some in Hw0 as [(-> & -> & _)|[_ Hw0]]; eauto. }
  act_cases Hact; rewrite ?(right_id_L [] (++)); unfold serial_inv.
  all: try (split; [done|split; [by exists o|done]]).
  all: rewrite !writes_app, !writes_one; cbn [is_write];
       rewrite ?Nat.add_0_r, ?Nat.add_1_r.
  - split; [done|split; [by exists o|]]. intros t' w0 l c.
    apply Hother. by intros.
  - split; [done|split; [by exists o|]]. intros t' w0 l c.
    apply Hother. by intros.
  - (* the read *)
    apply load_inv in Hld as (Hp' & o' & Ho' & ->). simplify_eq.
    split; [done|split; [by exists o|]]. intros t' w0 l c.
    apply Hother. by intros ?? [= <- <-].
  - (* the write *)
    destruct (HL _ _ _ _ Hw eq_refl) as [-> ->].
    split; [done|split].
    + exists (<[key := Number (add42 (increments (writes tr) v0))]> o).
      split; [by apply store_lookup|]. rewrite x_of_insert.
      split; [done|]. intros _. by rewrite obj_lookup_insert_eq.
    + intros t' w0 l c Hw0 Hph. simpl in Hw0.
      apply list_lookup_insert_Some in Hw0 as [(-> & <- & _)|[Hne Hw0]]; [done|].
      assert (V3.locker s = Some (Spawned t')) as Ht'.
      { apply (H1 _ _ Hw0). by rewrite Hph. }
      pose proof (H1 _ _ Hw eq_refl). congruence.
  - split; [done|split; [by exists o|]]. intros t' w0 l c.
    apply Hother. by intros.
Qed.

Lemma frame_inv_act r v0 h0 a s tr tr' s' :
  no_start a → serial_inv r v0 tr s → frame_inv r h0 tr s →
  act3 a s = Some (tr', s') →
  frame_inv r h0 (tr ++ tr') s'.
Proof.
  intros Ha (Hp & _ & HL) [Hs Hev] Hact.
  destruct (V3_act_world _ _ _ _ Hact)
    as [(t & l & c & -> & -> & Hw' & w & Hw & Hph)|(_ & Hev' & [[arg ->]|Hw'])];
    [|done|].
  - destruct (HL _ _ _ _ Hw Hph) as [-> _]. split.
    + rewrite Hw'. eapply same_but_x_trans; [exact Hs|apply store_same_but_x].
    + apply Forall_app. split; [done|]. by apply Forall_singleton.
  - split; [by rewrite Hw'|]. apply Forall_app. split; [done|].
    eapply Forall_impl; [exact Hev'|]. intros [th ev] [Hno|(l & c & -> & Hld)]; simpl in *.
    + by destruct ev.
    + apply load_inv in Hld as (Hp' & _). congruence.
Qed.

(** Every state a schedule reaches from the start satisfies the lock
    discipline, and so does the log that led to it. *)
Lemma V3_reachable sched st tr s :
  V3.exec sched (V3.at_load st) = Some (tr, s) →
  lock_inv s ∧ shape_inv tr s ∧ V3.replay (Some Host) tr = Some (V3.locker s).
Proof.
  intros He.
  apply (exec_invariant V3.Start V3.mutate V3.locker V3.with_locker (λ _, True)
           (λ tr s, lock_inv s ∧ shape_inv tr s ∧
                    V3.replay (Some Host) tr = Some (V3.locker s))
           ) with (sched := sched) (tr0 := []) (s0 := V3.at_load st).
  - intros tr1 s1 a tr' s' _ (HL & HS & HR) Hact.
    split; [by eapply lock_inv_act|].
    split; [by eapply shape_inv_act|by eapply replay_act].
  - by apply Forall_true.
  - split; [apply lock_inv_init|]. split; [apply shape_inv_init|done].
  - exact He.
Qed.

(** [start(r)] called once or more in a row. *)
Lemma V3_starts n r st :
  V3.exec (replicate (S n) (HostStart (Object r))) (V3.at_load st) =
  Some ([], V3.mkSys (mkState (heap st) (Some r)) (Some Host)
              (replicate (S n) (V3.mkWorker V3.Sleeping 0))).
Proof.
  assert (∀ n ws h p,
    V3.exec (replicate n (HostStart (Object r))) (V3.mkSys (mkState h p) (Some Host) ws) =
    Some ([], V3.mkSys (mkState h (if n is 0 then p else Some r)) (Some Host)
                (ws ++ replicate n (V3.mkWorker V3.Sleeping 0)))) as H.
  { clear. induction n as [|n IH]; intros ws h p; simpl.
    - by rewrite (right_id_L [] (++)).
    - unfold V3.exec in IH. rewrite IH. simpl. rewrite <- (assoc_L (++)). simpl.
      by destruct n. }
  destruct st as [h p]. unfold V3.at_load. by rewrite H.
Qed.

(** The five steps of the loop body. *)
Lemma step_sleep t s w :
  V3.workers s !! t = Some w → V3.phase w = V3.Sleeping →
  V3.mutate t s =
  Stepped EvSleep
    (V3.mkSys (V3.world s) (V3.locker s)
       (<[t := V3.mkWorker V3.AcquiringLock (V3.entered w)]> (V3.workers s))).
Proof. intros Hw Hph. unfold V3.mutate. by rewrite Hw, Hph. Qed.

Lemma step_acquire t s w :
  V3.workers s !! t = Some w → V3.phase w = V3.AcquiringLock → V3.locker s = None →
  V3.mutate t s =
  Stepped EvAcquire
    (V3.mkSys (V3.world s) (Some (Spawned t))
       (<[t := V3.mkWorker (V3.InCriticalSection V3.Entered) (S (V3.entered w))]>
          (V3.workers s))).
Proof. intros Hw Hph Hlk. unfold V3.mutate. by rewrite Hw, Hph, Hlk. Qed.

Lemma step_wait t s w h :
  V3.workers s !! t = Some w → V3.phase w = V3.AcquiringLock → V3.locker s = Some h →
  V3.mutate t s = Blocked.
Proof. intros Hw Hph Hlk. unfold V3.mutate. by rewrite Hw, Hph, Hlk. Qed.

Lemma step_read t s w r o :
  V3.workers s !! t = Some w → V3.phase w = V3.InCriticalSection V3.Entered →
  V3.locker s = Some (Spawned t) →
  persist (V3.world s) = Some r → heap (V3.world s) !! r = Some o →
  V3.mutate t s =
  Stepped (EvRead r (x_of (heap (V3.world s)) o))
    (V3.mkSys (V3.world s) (V3.locker s)
       (<[t := V3.mkWorker (V3.InCriticalSection (V3.Loaded r (x_of (heap (V3.world s)) o)))
                 (V3.entered w)]>
          (V3.workers s))).
Proof.
  intros Hw Hph Hlk Hp Ho. unfold V3.mutate, HandleScope.
  rewrite Hw, Hph, Hlk, bool_decide_true by done.
  by rewrite (load_registered _ _ _ Hp Ho).
Qed.

Lemma step_write t s w l c :
  V3.workers s !! t = Some w → V3.phase w = V3.InCriticalSection (V3.Loaded l c) →
  V3.mutate t s =
  Stepped (EvWrite l c)
    (V3.mkSys (store l c (V3.world s)) (V3.locker s)
       (<[t := V3.mkWorker (V3.InCriticalSection (V3.Stored l c)) (V3.entered w)]>
          (V3.workers s))).
Proof. intros Hw Hph. unfold V3.mutate. by rewrite Hw, Hph. Qed.

Lemma step_release t s w l c :
  V3.workers s !! t = Some w → V3.phase w = V3.InCriticalSection (V3.Stored l c) →
  V3.mutate t s =
  Stepped EvRelease
    (V3.mkSys (V3.world s) None
       (<[t := V3.mkWorker V3.Sleeping (V3.entered w)]> (V3.workers s))).
Proof. intros Hw Hph. unfold V3.mutate. by rewrite Hw, Hph. Qed.

(** One pass of a worker that nobody interleaves with. *)
Lemma wake_alone t s w r o :
  V3.workers s !! t = Some w → V3.phase w = V3.Sleeping → V3.locker s = None →
  persist (V3.world s) = Some r → heap (V3.world s) !! r = Some o →
  V3.exec (replicate 5 (Run t)) s =
  Some (pair (Spawned t) <$> V3.wake_log (r, x_of (heap (V3.world s)) o),
        V3.mkSys (store r (x_of (heap (V3.world s)) o) (V3.world s)) None
          (<[t := V3.mkWorker V3.Sleeping (S (V3.entered w))]> (V3.workers s))).
Proof.
  intros Hw Hph Hlk Hp Ho.
  pose proof (lookup_lt_Some _ _ _ Hw) as Hlt.
  unfold V3.exec. cbn [replicate].
  erewrite exec_Run; [|by apply step_sleep].
  erewrite exec_Run;
    [|apply step_acquire; [cbn; by apply list_lookup_insert_eq|done|done]].
  erewrite exec_Run;
    [|eapply step_read;
      [cbn; apply list_lookup_insert_eq; by rewrite length_insert
      |done|done|exact Hp|exact Ho]].
  erewrite exec_Run;
    [|eapply step_write; [cbn; apply list_lookup_insert_eq; by rewrite !length_insert|done]].
  erewrite exec_Run;
    [|eapply step_release; [cbn; apply list_lookup_insert_eq; by rewrite !length_insert|done]].
  cbn. by rewrite !list_insert_insert_eq.
Qed.

(** [N] passes of a worker that nobody interleaves with. *)
Lemma wakes_alone t r N : ∀ s w o,
  V3.workers s !! t = Some w → V3.phase w = V3.Sleeping → V3.locker s = None →
  persist (V3.world s) = Some r → heap (V3.world s) !! r = Some o →
  ∃ tr s' o',
    V3.exec (replicate (5 * N) (Run t)) s = Some (tr, s') ∧
    writes tr = N ∧
    V3.locker s' = None ∧
    heap (V3.world s') !! r = Some o' ∧
    x_of (heap (V3.world s')) o' = increments N (x_of (heap (V3.world s)) o) ∧
    (0 < N → o' !! key = Some (Number (increments N (x_of (heap (V3.world s)) o)))) ∧
    (N = 0 → o' = o).
Proof.
  induction N as [|N IH]; intros s w o Hw Hph Hlk Hp Ho.
  - exists [], s, o. rewrite Nat.mul_0_r. simpl.
    split; [done|]. split; [done|]. split; [done|]. split; [done|].
    split; [done|]. split; [lia|done].
  - replace (5 * S N) with (5 + 5 * N) by lia.
    rewrite replicate_add. unfold V3.exec. rewrite exec_app.
    fold (V3.exec (replicate 5 (Run t)) s).
    rewrite (wake_alone t s w r o Hw Hph Hlk Hp Ho). simpl option_bind.
    pose proof (lookup_lt_Some _ _ _ Hw) as Hlt.
    set (c := x_of (heap (V3.world s)) o).
    edestruct (IH (V3.mkSys (store r c (V3.world s)) None
                    (<[t := V3.mkWorker V3.Sleeping (S (V3.entered w))]> (V3.workers s))))
      as (tr & s' & o' & He & Hwr & Hlk' & Ho' & Hx & Hk & H0).
    { simpl. by apply list_lookup_insert_eq. }
    { done. } { done. } { done. }
    { simpl. by apply store_lookup. }
    unfold V3.exec in He. cbn [mbind option_bind]. rewrite He.
    cbn [V3.world] in Hx, Hk, H0, Ho'. rewrite x_of_insert in Hx, Hk.
    exists (((pair (Spawned t)) <$> V3.wake_log (r, c)) ++ tr), s', o'.
    split; [done|]. split.
    { rewrite writes_app, Hwr. reflexivity. }
    split; [done|]. split; [done|].
    change (increments (S N) c) with (add42 (increments N c)).
    rewrite <- increments_shift. split; [done|]. split; [|lia]. intros _.
    destruct N as [|N]; [|apply Hk; lia].
    rewrite (H0 eq_refl). by rewrite obj_lookup_insert_eq.
Qed.

(** With a live record registered, a step that is no call of [start]
    goes through. *)
Lemma V3_act_exists r v0 a s tr :
  no_start a → lock_inv s → serial_inv r v0 tr s →
  ∃ tr' s', act3 a s = Some (tr', s').
Proof.
  intros Ha [H1 _] (Hp & (o & Ho & _) & _). destruct a as [arg| | |t]; [done| | |]; simpl.
  - case_bool_decide; eauto.
  - destruct (V3.locker s); eauto.
  - unfold V3.mutate, HandleScope.
    destruct (V3.workers s !! t) as [w|] eqn:Hw; [|by eauto].
    pose proof (H1 _ _ Hw) as Hcs.
    destruct (V3.phase w) as [| |[|l c|l c]]; [by eauto| |..|by eauto|by eauto].
    + destruct (V3.locker s); eauto.
    + rewrite (Hcs eq_refl), bool_decide_true, (load_registered _ _ _ Hp Ho) by done.
      eauto.
Qed.

(** The schedules without a call of [start] from a state in which the
    live record [r] is registered and no operation is between its read
    and its write: they run to their end. *)
Lemma V3_runs r o sched s0 :
  Forall no_start sched → lock_inv s0 →
  persist (V3.world s0) = Some r → heap (V3.world s0) !! r = Some o →
  (∀ t w l c, V3.workers s0 !! t = Some w →
     V3.phase w ≠ V3.InCriticalSection (V3.Loaded l c)) →
  ∃ tr s,
    V3.exec sched s0 = Some (tr, s) ∧
    lock_inv s ∧
    serial_inv r (x_of (heap (V3.world s0)) o) tr s ∧
    frame_inv r (heap (V3.world s0)) tr s.
Proof.
  intros Hsched HL Hp Ho Hidle.
  apply (exec_total V3.Start V3.mutate V3.locker V3.with_locker no_start
           (λ tr s, lock_inv s ∧ serial_inv r (x_of (heap (V3.world s0)) o) tr s ∧
                    frame_inv r (heap (V3.world s0)) tr s)
           ) with (sched := sched) (tr0 := []) (s0 := s0).
  - intros tr s a Ha (HL1 & HS1 & HF1).
    destruct (V3_act_exists _ _ a s tr Ha HL1 HS1) as (tr' & s' & Hact).
    exists tr', s'. split; [done|].
    split; [by eapply lock_inv_act|].
    split; [by eapply serial_inv_act|by eapply frame_inv_act].
  - done.
  - split; [done|]. split; [|split; [apply same_but_x_refl|done]].
    split; [done|]. split.
    + exists o. split; [done|]. split; [done|]. unfold writes. simpl. lia.
    + intros t w l c Hw Hph. by destruct (Hidle _ _ l c Hw).
Qed.

(** Any number of workers on one record, in any interleaving, whatever
    the host does with the lock: the field has taken exactly one
    addition of 42 per write, in sequence. *)
Theorem V3_serialized st r o n sched tr s :
  heap st !! r = Some o → Forall no_start sched →
  V3.exec (replicate (S n) (HostStart (Object r)) ++ sched) (V3.at_load st) = Some (tr, s) →
  ∃ o', heap (V3.world s) !! r = Some o' ∧
        x_of (heap (V3.world s)) o' = increments (writes tr) (x_of (heap st) o) ∧
        (0 < writes tr → o' !! key = Some (Number (increments (writes tr) (x_of (heap st) o)))).
Proof.
  intros Ho Hsched He. unfold V3.exec in He. rewrite exec_app in He.
  fold (V3.exec (replicate (S n) (HostStart (Object r))) (V3.at_load st)) in He.
  pose proof (V3_starts n r st) as Hs. rewrite Hs in He. cbn [mbind option_bind] in He.
  apply V3_reachable in Hs as (HL & _).
  destruct (V3_runs r o sched _ Hsched HL eq_refl Ho) as (tr2 & s2 & He2 & _ & HS & _).
  { intros t w l c Hw. cbn [V3.workers] in Hw.
    by apply lookup_replicate_1 in Hw as [-> _]. }
  unfold V3.exec in He2. rewrite He2 in He. cbn in He. injection He as <- <-.
  by destruct HS as (_ & Hx & _).
Qed.

Lemma acquires_wake_logs ops :
  count is_acquire (mjoin (V3.wake_log <$> ops)) = length ops.
Proof. induction ops as [|op ops IH]; [done|]. cbn. f_equal. exact IH. Qed.

Lemma releases_wake_logs ops :
  count is_release (mjoin (V3.wake_log <$> ops)) = length ops.
Proof. induction ops as [|op ops IH]; [done|]. cbn. f_equal. exact IH. Qed.

(** [isolate->Enter()] runs once per acquisition and is never undone:
    the count of a worker is the number of its acquisitions so far. *)
Lemma V3_enter_never_exits sched st tr s t w :
  V3.exec sched (V3.at_load st) = Some (tr, s) →
  V3.workers s !! t = Some w →
  V3.entered w = count is_acquire (events_of t tr).
Proof.
  intros He Hw. apply V3_reachable in He as (_ & HS & _).
  specialize (HS t). rewrite Hw in HS. destruct HS as (ops & -> & ->).
  rewrite count_app, acquires_wake_logs.
  destruct (V3.phase w) as [| |[|l c|l c]]; cbn; lia.
Qed.

(** A worker inside the scope of its [locker] reaches the closing brace
    by its own remaining steps, none of which waits for anybody; only
    the read can end the process. *)
Lemma V3_leaves_scope t s w c :
  V3.workers s !! t = Some w → V3.phase w = V3.InCriticalSection c →
  V3.locker s = Some (Spawned t) →
  match V3.exec (replicate (remaining c) (Run t)) s with
  | Some (tr', s') =>
      V3.locker s' = None ∧
      count is_release (events_of t tr') = 1 ∧
      count is_acquire (events_of t tr') = 0
  | None => c = V3.Entered ∧ load (V3.world s) = None
  end.
Proof.
  intros Hw Hph Hlk. pose proof (lookup_lt_Some _ _ _ Hw) as Hlt.
  unfold V3.exec. destruct c as [|l c|l c]; cbn [remaining replicate].
  - destruct (load (V3.world s)) as [[l c]|] eqn:Hld.
    + apply load_inv in Hld as (Hp & o & Ho & ->).
      erewrite exec_Run; [|by eapply step_read].
      erewrite exec_Run;
        [|eapply step_write; [cbn; by apply list_lookup_insert_eq|done]].
      erewrite exec_Run;
        [|eapply step_release;
          [cbn; apply list_lookup_insert_eq; by rewrite length_insert|done]].
      cbn. rewrite !decide_True by done. done.
    + simpl. unfold V3.mutate, HandleScope.
      by rewrite Hw, Hph, Hlk, bool_decide_true, Hld by done.
  - erewrite exec_Run; [|by eapply step_write].
    erewrite exec_Run;
      [|eapply step_release; [cbn; by apply list_lookup_insert_eq|done]].
    cbn. rewrite !decide_True by done. done.
  - erewrite exec_Run; [|by eapply step_release].
    cbn. rewrite !decide_True by done. done.
Qed.

(** A step of a worker while somebody else holds the lock and no worker
    is inside the scope of its [locker]: a wake, or nothing. *)
Lemma waiting_Run h tr s t :
  V3.locker s = Some h → Forall (λ e, e.2 = EvSleep) tr → waiting tr s →
  ∃ tr' s', act3 (Run t) s = Some (tr', s') ∧
            V3.world s' = V3.world s ∧ V3.locker s' = Some h ∧
            Forall (λ e, e.2 = EvSleep) (tr ++ tr') ∧ waiting (tr ++ tr') s'.
Proof.
  intros Hl Hsl Hws. simpl. pose proof (Hws t) as Ht.
  destruct (V3.workers s !! t) as [w|] eqn:Hw.
  - destruct Ht as [Hcs Hev].
    destruct (V3.phase w) as [| |c] eqn:Hph; [| |done].
    + rewrite (step_sleep _ _ _ Hw Hph). eexists _, _. split; [done|].
      split; [done|]. split; [done|]. split.
      { apply Forall_app. split; [done|]. by apply Forall_singleton. }
      intros t'. simpl.
      rewrite (insert_worker_lookup _ _ _ _ _ Hw), events_of_app, events_of_worker.
      specialize (Hws t'). case_decide as Htt.
      * subst t'. rewrite Hw in Hws. simpl. split; [done|]. right.
        destruct Hev as [->|[_ ?]]; [done|congruence].
      * by rewrite (right_id_L [] (++)).
    + rewrite (step_wait _ _ _ _ Hw Hph Hl). eexists _, _. split; [done|].
      by rewrite (right_id_L [] (++)).
  - unfold V3.mutate. rewrite Hw. eexists _, _. split; [done|].
    by rewrite (right_id_L [] (++)).
Qed.

(** One more worker, asleep. *)
Lemma waiting_spawn tr s s' :
  waiting tr s → V3.workers s' = V3.workers s ++ [V3.mkWorker V3.Sleeping 0] →
  waiting tr s'.
Proof.
  intros Hws Hw' t. rewrite Hw'. specialize (Hws t).
  destruct (decide (t < length (V3.workers s))) as [Hlt|Hge].
  - by rewrite lookup_app_l.
  - rewrite lookup_ge_None_2 in Hws by lia.
    rewrite lookup_app_r by lia.
    destruct (t - length (V3.workers s)) as [|n]; simpl; [|done].
    split; [done|by left].
Qed.

Lemma waits_inv_act h s0 tr s a :
  worker_only a → waits_inv h s0 tr s →
  ∃ tr' s', act3 a s = Some (tr', s') ∧ waits_inv h s0 (tr ++ tr') s'.
Proof.
  intros Ha (Hw0 & Hl & Hsl & Hws). destruct a as [arg| | |t]; try done.
  destruct (waiting_Run h tr s t Hl Hsl Hws) as (tr' & s' & Hact & Hw' & Hl' & Hsl' & Hws').
  exists tr', s'. split; [done|]. split; [congruence|done].
Qed.

(** While the lock is held and no worker is inside the scope of its
    [locker], every schedule of worker steps runs to its end and the
    workers do nothing but wake up and wait. *)
Lemma V3_waits (s0 : V3.Sys) (h : Thread) (sched : list Action) :
  V3.locker s0 = Some h →
  (∀ t w, V3.workers s0 !! t = Some w → V3.in_cs (V3.phase w) = false) →
  Forall worker_only sched →
  ∃ tr s, V3.exec sched s0 = Some (tr, s) ∧ waits_inv h s0 tr s.
Proof.
  intros Hl Hout Hsched.
  apply (exec_total V3.Start V3.mutate V3.locker V3.with_locker worker_only (waits_inv h s0)
           (λ tr s a, waits_inv_act h s0 tr s a) sched [] s0 Hsched).
  split; [done|]. split; [done|]. split; [done|]. intros t.
  destruct (V3.workers s0 !! t) as [w|] eqn:Hw; [|done].
  split; [by eapply Hout|by left].
Qed.

Lemma waiting_length tr s t : waiting tr s → length (events_of t tr) ≤ 1.
Proof.
  intros Hws. specialize (Hws t).
  destruct (V3.workers s !! t); [destruct Hws as [_ [->|[-> _]]]|rewrite Hws]; simpl; lia.
Qed.

(** As the files run mutate03, the host never gives up the lock. *)
Lemma standstill_inv_act h0 tr s a :
  of_the_files a → standstill_inv h0 tr s →
  ∃ tr' s', act3 a s = Some (tr', s') ∧ standstill_inv h0 (tr ++ tr') s'.
Proof.
  intros Ha (Hl & Hh & Hsl & Hws). destruct a as [arg| | |t]; try done.
  - simpl. unfold V3.Start, HandleScope. rewrite Hl, bool_decide_true by done.
    destruct (ToObject arg (heap (V3.world s))) as [o h] eqn:Hto.
    assert (∀ l x, h0 !! l = Some x → h !! l = Some x) as Hh'.
    { intros l x Hx. eapply ToObject_preserves; eauto. }
    destruct o; eexists _, _; (split; [done|]); rewrite (right_id_L [] (++)).
    all: split; [done|]; split; [done|]; split; [done|].
    all: by eapply waiting_spawn.
  - destruct (waiting_Run Host tr s t Hl Hsl Hws)
      as (tr' & s' & Hact & Hw' & Hl' & Hsl' & Hws').
    exists tr', s'. split; [done|]. split; [done|]. split; [by rewrite Hw'|done].
Qed.

Lemma V3_standstill st sched :
  Forall of_the_files sched →
  ∃ tr s, V3.exec sched (V3.at_load st) = Some (tr, s) ∧ standstill_inv (heap st) tr s.
Proof.
  intros Hsched.
  apply (exec_total V3.Start V3.mutate V3.locker V3.with_locker of_the_files
           (standstill_inv (heap st))
           (λ tr s a, standstill_inv_act (heap st) tr s a) sched [] _ Hsched).
  split; [done|]. split; [done|]. split; [done|]. by intros t.
Qed.

Lemma V3_act_workers a s tr' s' :
  act3 a s = Some (tr', s') →
  length (V3.workers s') = length (V3.workers s) + (if is_start a then 1 else 0).
Proof.
  intros Hact. destruct a as [arg| | |t]; act_cases Hact.
  all: rewrite ?length_app, ?length_insert; simpl; lia.
Qed.

End Locked.

(** ** mutate02 *)

Section Unlocked.
Implicit Types (s : V2.Sys) (t : nat) (tr : Trace).

Lemma insert_phase_lookup (ws : list V2.Phase) t t' p p' :
  ws !! t = Some p →
  <[t := p']> ws !! t' = (if decide (t = t') then Some p' else ws !! t').
Proof.
  intros Hw. rewrite list_lookup_insert. apply lookup_lt_Some in Hw.
  repeat case_decide; naive_solver.
Qed.

(** No worker of mutate02 holds the lock, so none gets past its
    [HandleScope]. *)
Lemma outside_inv_act h0 a s tr tr' s' :
  outside_inv h0 tr s → act2 a s = Some (tr', s') →
  outside_inv h0 (tr ++ tr') s' ∧ (no_start a → V2.world s' = V2.world s).
Proof.
  intros (Hl & Hph & Hh & Hev) Hact. destruct a as [arg| | |t]; simpl in Hact.
  - unfold V2.Start in Hact. destruct (HandleScope _ _); [|done].
    destruct (ToObject arg (heap (V2.world s))) as [o h] eqn:Hto.
    assert (tr' = [] ∧ V2.locker s' = V2.locker s ∧
            V2.workers s' = V2.workers s ++ [V2.Sleeping] ∧ heap (V2.world s') = h)
      as (-> & Hl' & Hw' & Hh').
    { by destruct o; injection Hact as <- <-. }
    rewrite (right_id_L [] (++)). split; [|done]. split; [by rewrite Hl'|]. split.
    { intros t. rewrite Hw'. specialize (Hph t).
      destruct (decide (t < length (V2.workers s))) as [Hlt|Hge].
      - by rewrite lookup_app_l.
      - rewrite lookup_ge_None_2 in Hph by lia. rewrite lookup_app_r by lia.
        by destruct (t - length (V2.workers s)) as [|n]. }
    split; [|done]. intros l x Hx. rewrite Hh'. eapply ToObject_preserves; eauto.
  - unfold V2.with_locker in Hact. case_bool_decide; simplify_eq; simpl.
    + split; [|done]. split; [done|]. split.
      { intros t. rewrite events_of_app, events_of_host, (right_id_L [] (++)). apply Hph. }
      split; [done|].
      apply Forall_app. split; [done|]. apply Forall_singleton. by intros [].
    + rewrite (right_id_L [] (++)). done.
  - unfold V2.with_locker in Hact. destruct (V2.locker s) eqn:Hlk; simplify_eq; simpl.
    + rewrite (right_id_L [] (++)). split; [|done]. split; [|done]. by rewrite Hlk.
    + split; [|done]. split; [done|]. split.
      { intros t. rewrite events_of_app, events_of_host, (right_id_L [] (++)). apply Hph. }
      split; [done|].
      apply Forall_app. split; [done|]. apply Forall_singleton. by intros [].
  - unfold V2.mutate, HandleScope in Hact. pose proof (Hph t) as Ht.
    destruct (V2.workers s !! t) as [[| |l c]|] eqn:Hw; [| |done|].
    + injection Hact as <- <-. split; [|done]. split; [done|]. split.
      { intros t'. cbn [V2.workers].
        rewrite (insert_phase_lookup _ _ _ _ _ Hw), events_of_app, events_of_worker.
        specialize (Hph t'). case_decide as Htt.
        - subst t'. by rewrite Ht.
        - by rewrite (right_id_L [] (++)). }
      split; [done|]. apply Forall_app. split; [done|]. apply Forall_singleton. by intros [].
    + rewrite bool_decide_false in Hact by apply Hl. done.
    + injection Hact as <- <-. rewrite (right_id_L [] (++)). done.
Qed.

Lemma V2_reachable sched st tr s :
  V2.exec sched (V2.at_load st) = Some (tr, s) → outside_inv (heap st) tr s.
Proof.
  intros He.
  apply (exec_invariant V2.Start V2.mutate V2.locker V2.with_locker (λ _, True)
           (outside_inv (heap st))) with (sched := sched) (tr0 := []) (s0 := V2.at_load st).
  - intros tr1 s1 a tr' s' _ HP Hact. by eapply outside_inv_act.
  - by apply Forall_true.
  - done.
  - exact He.
Qed.

(** The second step of a worker: the [HandleScope] ends the process. *)
Lemma V2_woken_dies h0 tr s t :
  outside_inv h0 tr s → V2.workers s !! t = Some V2.Woken → V2.mutate t s = Crashed.
Proof.
  intros (Hl & _) Hw. unfold V2.mutate, HandleScope. rewrite Hw.
  by rewrite bool_decide_false by apply Hl.
Qed.


Lemma V2_act_workers a s tr' s' :
  act2 a s = Some (tr', s') →
  length (V2.workers s') = length (V2.workers s) + (if is_start a then 1 else 0).
Proof.
  destruct a as [arg| | |t]; simpl; unfold V2.Start, V2.mutate, V2.with_locker.
  - destruct (HandleScope _ _); [|done].
    destruct (ToObject arg (heap (V2.world s))) as [[l|] h]; intros [= <- <-]; simpl.
    all: by rewrite length_app.
  - case_bool_decide; intros [= <- <-]; simpl; lia.
  - destruct (V2.locker s); intros [= <- <-]; simpl; lia.
  - destruct (V2.workers s !! t) as [[| |l c]|]; simpl.
    all: try destruct (HandleScope _ _); try destruct (load (V2.world s)) as [[??]|].
    all: intros [= <- <-]; simpl; rewrite ?length_insert; lia.
Qed.

End Unlocked.

(** ** Claims about mutate03 *)

(** C2 as stated fails: the script that calls [start(r)] runs on the
    host thread, which holds the isolate's lock and never gives it up
    (no file unlocks it).  The lone worker wakes once and then waits in
    the constructor of its [Locker]: after the steps of a full pass no
    write has happened and [r.x] is still 0, not 42. *)
Lemma lone_worker_waits :
  ∃ tr s,
    V3.exec (HostStart (Object 1%positive) :: replicate (5 * 1) (Run 0))
      (V3.at_load (one_record (record_x (Number 0)))) = Some (tr, s) ∧
    writes tr = 0 ∧
    V3.mutate 0 s = Blocked ∧
    field (V3.world s) 1%positive key = Some (Number 0) ∧
    field (V3.world s) 1%positive key ≠ Some (Number (42 * float_of_nat 1)).
Proof.
  eexists _, _. split; [vm_compute; reflexivity|].
  split; [reflexivity|]. split; [reflexivity|].
  split; vm_compute; congruence.
Qed.

(** C2 (as amended): with [r.x = 0] and one worker started on [r], for
    [N] = 0, 1, 10 and 100.  As the files run, the host holds the lock:
    the steps of [N] passes run to the end, log no write and leave the
    record, the handle and the lock as [start] left them.  When the host
    gives the lock up after [start] and nobody else touches the record,
    the [N] passes (five steps each) run to the end, log [N] writes,
    leave the lock free and [r.x] at the number [42 * N]. *)
Theorem V3_lone_worker (st : State) (r : loc) (o : Obj) (N : nat) :
  heap st !! r = Some o → o !! key = Some (Number 0) → N ∈ [0; 1; 10; 100] →
  (∃ tr s,
     V3.exec (HostStart (Object r) :: replicate (5 * N) (Run 0)) (V3.at_load st)
       = Some (tr, s) ∧
     writes tr = 0 ∧
     V3.locker s = Some Host ∧
     V3.world s = mkState (heap st) (Some r)) ∧
  (∃ tr s o',
     V3.exec (HostStart (Object r) :: HostUnlock :: replicate (5 * N) (Run 0)) (V3.at_load st)
       = Some (tr, s) ∧
     writes tr = N ∧
     V3.locker s = None ∧
     heap (V3.world s) !! r = Some o' ∧
     o' !! key = Some (Number (42 * float_of_nat N))).
Proof.
  intros Ho Hx HN. split.
  - destruct (V3_waits
                (V3.mkSys (mkState (heap st) (Some r)) (Some Host) [V3.mkWorker V3.Sleeping 0])
                Host (replicate (5 * N) (Run 0)))
      as (tr & s & He & Hw & Hl & Hsl & _).
    { done. }
    { intros [|t] w; simpl; [by intros [= <-]|done]. }
    { by apply Forall_replicate. }
    exists tr, s. split; [|split; [|done]].
    + unfold V3.exec in *. rewrite exec_HostStart. exact He.
    + unfold writes. clear He. induction Hsl as [|[th ev] tr Hev _ IH]; [done|].
      simpl in Hev. subst ev. exact IH.
  - destruct (wakes_alone 0 r N
                (V3.mkSys (mkState (heap st) (Some r)) None [V3.mkWorker V3.Sleeping 0])
                (V3.mkWorker V3.Sleeping 0) o)
      as (tr & s & o' & He & Hwr & Hlk & Ho' & _ & Hk & H0); try done.
    exists ((Host, EvRelease) :: tr), s, o'. split.
    { unfold V3.exec in *. rewrite exec_HostStart.
      change (V3.Start (Object r) (V3.at_load st)) with
        (Returned Undefined
           (V3.mkSys (mkState (heap st) (Some r)) (Some Host) [V3.mkWorker V3.Sleeping 0])).
      cbv beta iota. rewrite exec_HostUnlock by done.
      change (V3.with_locker None _) with
        (V3.mkSys (mkState (heap st) (Some r)) None [V3.mkWorker V3.Sleeping 0]).
      by rewrite He. }
    split; [done|]. split; [done|]. split; [done|].
    assert (x_of (heap st) o = 0%float) as Hx0 by (unfold x_of; by rewrite Hx).
    cbn [V3.world heap] in Hk. rewrite Hx0 in Hk.
    repeat (apply elem_of_cons in HN as [->|HN]); [| | | |by apply elem_of_nil in HN].
    + by rewrite (H0 eq_refl).
    + rewrite Hk by lia. reflexivity.
    + rewrite Hk by lia. reflexivity.
    + rewrite Hk by lia. reflexivity.
Qed.

Lemma V3_lone_worker_witness :
  (∃ tr s,
     V3.exec (HostStart (Object 1%positive) :: replicate (5 * 10) (Run 0))
       (V3.at_load (one_record (record_x (Number 0)))) = Some (tr, s) ∧
     writes tr = 0 ∧
     V3.locker s = Some Host ∧
     V3.world s = mkState (heap (one_record (record_x (Number 0)))) (Some 1%positive)) ∧
  (∃ tr s o',
     V3.exec (HostStart (Object 1%positive) :: HostUnlock :: replicate (5 * 10) (Run 0))
       (V3.at_load (one_record (record_x (Number 0)))) = Some (tr, s) ∧
     writes tr = 10 ∧
     V3.locker s = None ∧
     heap (V3.world s) !! 1%positive = Some o' ∧
     o' !! key = Some (Number (42 * float_of_nat 10))).
Proof.
  apply (V3_lone_worker (one_record (record_x (Number 0))) 1%positive (record_x (Number 0)) 10).
  - reflexivity.
  - reflexivity.
  - apply list_elem_of_In. simpl. tauto.
Defined.

(** C3: in every state a schedule reaches, at most one worker is inside
    the scope of its [locker], a worker holds the lock exactly while it
    is inside, the lock is granted only when free, and the log replays
    against a lock that the host holds at first: no acquisition while it
    is held, so no two critical sections overlap. *)
Theorem V3_mutual_exclusion (sched : list Action) (st : State) (tr : Trace) (s : V3.Sys) :
  V3.exec sched (V3.at_load st) = Some (tr, s) →
  (∀ t1 t2 w1 w2,
     V3.workers s !! t1 = Some w1 → V3.workers s !! t2 = Some w2 →
     V3.in_cs (V3.phase w1) = true → V3.in_cs (V3.phase w2) = true → t1 = t2) ∧
  (∀ t w, V3.workers s !! t = Some w →
     (V3.locker s = Some (Spawned t) ↔ V3.in_cs (V3.phase w) = true)) ∧
  (∀ t s', V3.mutate t s = Stepped EvAcquire s' →
     V3.locker s = None ∧ V3.locker s' = Some (Spawned t)) ∧
  V3.replay (Some Host) tr = Some (V3.locker s).
Proof.
  intros He. apply V3_reachable in He as ([H1 H2] & _ & Hrep).
  split; [|split; [|split; [|done]]].
  - intros t1 t2 w1 w2 Hw1 Hw2 Hc1 Hc2.
    pose proof (H1 _ _ Hw1 Hc1). pose proof (H1 _ _ Hw2 Hc2). congruence.
  - intros t w Hw. split; [|by apply H1].
    intros Ht. destruct (H2 t Ht) as (w' & Hw' & Hc). congruence.
  - intros t s' Hstep. apply V3_step_inv in Hstep as (w & Hw & Hph).
    destruct (V3.phase w) as [| |[|l c|l c]]; try (by destruct Hph as [? _]).
    + tauto.
    + by destruct Hph as [(? & ? & ? & _) _].
Qed.

Lemma V3_mutual_exclusion_witness :
  ∃ tr s,
    V3.exec [HostStart (Object 1%positive); HostStart (Object 1%positive); HostUnlock;
             Run 0; Run 1; Run 0; Run 1; Run 0; Run 1; Run 0; Run 0; Run 1; Run 1]
      (V3.at_load (one_record (record_x (Number 0)))) = Some (tr, s) ∧
    V3.locker s = Some (Spawned 1) ∧
    V3.replay (Some Host) tr = Some (V3.locker s).
Proof.
  eexists _, _. split; [vm_compute; reflexivity|].
  split; [reflexivity|].
  refine (proj2 (proj2 (proj2 (V3_mutual_exclusion
    [HostStart (Object 1%positive); HostStart (Object 1%positive); HostUnlock;
     Run 0; Run 1; Run 0; Run 1; Run 0; Run 1; Run 0; Run 0; Run 1; Run 1]
    (one_record (record_x (Number 0))) _ _ _)))).
  vm_compute. reflexivity.
Defined.

(** C6 as stated fails: as the files run, a wake of the worker is not
    followed by an operation.  The host holds the lock, so the worker
    wakes, asks for the lock and waits: its log is the one wake, the
    record and the handle are as [start] left them, and its next step
    is blocked. *)
Lemma wake_without_operation :
  ∃ tr s,
    V3.exec (HostStart (Object 1%positive) :: replicate 6 (Run 0))
      (V3.at_load (one_record (record_x (Number 0)))) = Some (tr, s) ∧
    tr = [(Spawned 0, EvSleep)] ∧
    events_of 0 tr ≠ V3.wake_log (1%positive, 0%float) ∧
    V3.world s = mkState (heap (one_record (record_x (Number 0)))) (Some 1%positive) ∧
    V3.mutate 0 s = Blocked.
Proof.
  eexists _, _. split; [vm_compute; reflexivity|].
  split; [reflexivity|]. split; [by vm_compute|]. split; reflexivity.
Qed.

(** C6 (as amended): along every schedule the log of each worker is a
    run of full passes [sleep, acquire, read, write, release] (one
    read-modify-write per acquisition of the lock, between the
    acquisition and the release) followed by the pass it is in.  A step
    that reads or writes the record is taken by the holder of the lock,
    who still holds it afterwards; the other steps leave the isolate's
    heap and [persist] alone.  The read step reads field ["x"] of the
    registered record and changes nothing; the write step is the step
    after that read and stores the number read plus 42 in that field.
    As the files run (the host never gives up the lock) a wake is
    followed by no operation: the log holds wakes only. *)
Theorem V3_access_inside_lock (sched : list Action) (st : State) (tr : Trace) (s : V3.Sys) :
  V3.exec sched (V3.at_load st) = Some (tr, s) →
  (∀ t w, V3.workers s !! t = Some w →
     ∃ ops : list (loc * float),
       events_of t tr = mjoin (V3.wake_log <$> ops) ++ V3.pending (V3.phase w)) ∧
  (∀ t ev s', V3.mutate t s = Stepped ev s' → touches_engine ev →
     V3.locker s = Some (Spawned t) ∧ V3.locker s' = Some (Spawned t)) ∧
  (∀ t ev s', V3.mutate t s = Stepped ev s' → ¬ touches_engine ev →
     V3.world s' = V3.world s) ∧
  (∀ t l c s', V3.mutate t s = Stepped (EvRead l c) s' →
     persist (V3.world s) = Some l ∧
     (∃ o, heap (V3.world s) !! l = Some o ∧ c = x_of (heap (V3.world s)) o) ∧
     V3.world s' = V3.world s) ∧
  (∀ t l c s', V3.mutate t s = Stepped (EvWrite l c) s' →
     (∃ w, V3.workers s !! t = Some w ∧ V3.pending (V3.phase w) = [EvSleep; EvAcquire; EvRead l c]) ∧
     V3.world s' = store l c (V3.world s) ∧
     persist (V3.world s') = persist (V3.world s) ∧
     (∀ o, heap (V3.world s) !! l = Some o →
        heap (V3.world s') !! l = Some (<[key := Number (add42 c)]> o))) ∧
  (Forall of_the_files sched →
     Forall (λ e, e.2 = EvSleep) tr ∧ V3.locker s = Some Host).
Proof.
  intros He. pose proof He as He0.
  apply V3_reachable in He as ([H1 H2] & HS & _).
  split; [|split; [|split; [|split; [|split]]]].
  - intros t w Hw. specialize (HS t). rewrite Hw in HS.
    destruct HS as (ops & Hev & _). by exists ops.
  - intros t ev s' Hstep Hev. apply V3_step_inv in Hstep as (w & Hw & Hph).
    pose proof (H1 _ _ Hw) as Hlk.
    destruct (V3.phase w) as [| |[|l c|l c]].
    + by destruct Hph as [-> _].
    + by destruct Hph as [-> _].
    + destruct Hph as (_ & _ & ->). split; by apply Hlk.
    + destruct Hph as (_ & _ & ->). split; by apply Hlk.
    + by destruct Hph as [-> _].
  - intros t ev s' Hstep Hev. apply V3_step_inv in Hstep as (w & Hw & Hph).
    destruct (V3.phase w) as [| |[|l c|l c]]; try tauto.
    destruct Hph as (-> & _). by destruct Hev.
  - intros t l c s' Hstep. apply V3_step_inv in Hstep as (w & Hw & Hph).
    destruct (V3.phase w) as [| |[|l0 c0|l0 c0]]; try by destruct Hph as [? _].
    destruct Hph as ((l1 & c1 & [= <- <-] & Hld) & -> & _).
    apply load_inv in Hld as (Hp & o & Ho & ->). eauto.
  - intros t l c s' Hstep. apply V3_step_inv in Hstep as (w & Hw & Hph).
    destruct (V3.phase w) as [| |[|l0 c0|l0 c0]] eqn:Hp; try by destruct Hph as [? _].
    { by destruct Hph as [(? & ? & ? & _) _]. }
    destruct Hph as ([= <- <-] & -> & _).
    split; [exists w; by rewrite Hp|]. split; [done|]. split; [done|].
    intros o Ho. by apply store_lookup.
  - intros Hfiles. destruct (V3_standstill st sched Hfiles) as (tr' & s' & He' & Hl & _ & Hsl & _).
    rewrite He0 in He'. by injection He' as <- <-.
Qed.

Lemma V3_access_inside_lock_witness :
  ∃ tr s,
    V3.exec [HostStart (Object 1%positive); HostStart (Object 1%positive); HostUnlock;
             Run 0; Run 1; Run 0; Run 1; Run 0; Run 1; Run 0; Run 0; Run 1; Run 1]
      (V3.at_load (one_record (record_x (Number 0)))) = Some (tr, s) ∧
    events_of 0 tr = V3.wake_log (1%positive, 0%float) ∧
    ∀ t l c s', V3.mutate t s = Stepped (EvWrite l c) s' →
      (∃ w, V3.workers s !! t = Some w ∧
            V3.pending (V3.phase w) = [EvSleep; EvAcquire; EvRead l c]) ∧
      V3.world s' = store l c (V3.world s) ∧
      persist (V3.world s') = persist (V3.world s) ∧
      (∀ o, heap (V3.world s) !! l = Some o →
         heap (V3.world s') !! l = Some (<[key := Number (add42 c)]> o)).
Proof.
  eexists _, _. split; [vm_compute; reflexivity|].
  split; [reflexivity|].
  refine (proj1 (proj2 (proj2 (proj2 (proj2 (V3_access_inside_lock
    [HostStart (Object 1%positive); HostStart (Object 1%positive); HostUnlock;
     Run 0; Run 1; Run 0; Run 1; Run 0; Run 1; Run 0; Run 0; Run 1; Run 1]
    (one_record (record_x (Number 0))) _ _ _)))))).
  vm_compute. reflexivity.
Defined.

(** C7: along every schedule each worker has logged as many releases as
    acquisitions, plus the one acquisition of the scope it is in; it
    holds the lock exactly while it is in that scope (never while it
    sleeps or waits); and from inside the scope its next steps release
    the lock exactly once without acquiring it again, unless the read
    ends the process. *)
Theorem V3_release_per_acquire
    (sched : list Action) (st : State) (tr : Trace) (s : V3.Sys) (t : nat) (w : V3.Worker) :
  V3.exec sched (V3.at_load st) = Some (tr, s) →
  V3.workers s !! t = Some w →
  count is_acquire (events_of t tr) =
    count is_release (events_of t tr) + (if V3.in_cs (V3.phase w) then 1 else 0) ∧
  (V3.locker s = Some (Spawned t) ↔ V3.in_cs (V3.phase w) = true) ∧
  (∀ c, V3.phase w = V3.InCriticalSection c →
     match V3.exec (replicate (remaining c) (Run t)) s with
     | Some (tr', s') =>
         V3.locker s' = None ∧
         count is_release (events_of t tr') = 1 ∧
         count is_acquire (events_of t tr') = 0
     | None => c = V3.Entered ∧ load (V3.world s) = None
     end).
Proof.
  intros He Hw. apply V3_reachable in He as ([H1 H2] & HS & _).
  split; [|split].
  - specialize (HS t). rewrite Hw in HS. destruct HS as (ops & -> & _).
    rewrite !count_app, acquires_wake_logs, releases_wake_logs.
    destruct (V3.phase w) as [| |[|l c|l c]]; cbn; lia.
  - split; [|by apply H1].
    intros Ht. destruct (H2 t Ht) as (w' & Hw' & Hc). congruence.
  - intros c Hph. apply (V3_leaves_scope t s w c Hw Hph).
    apply (H1 _ _ Hw). by rewrite Hph.
Qed.

Lemma V3_release_per_acquire_witness :
  ∃ tr s w,
    V3.exec [HostStart (Object 1%positive); HostStart (Object 1%positive); HostUnlock;
             Run 0; Run 1; Run 0; Run 1; Run 0; Run 1; Run 0; Run 0; Run 1; Run 1]
      (V3.at_load (one_record (record_x (Number 0)))) = Some (tr, s) ∧
    V3.workers s !! 1 = Some w ∧
    count is_acquire (events_of 1 tr) =
      count is_release (events_of 1 tr) + (if V3.in_cs (V3.phase w) then 1 else 0).
Proof.
  eexists _, _, _. split; [vm_compute; reflexivity|].
  split; [reflexivity|].
  eapply proj1.
  eapply (V3_release_per_acquire
    [HostStart (Object 1%positive); HostStart (Object 1%positive); HostUnlock;
     Run 0; Run 1; Run 0; Run 1; Run 0; Run 1; Run 0; Run 0; Run 1; Run 1]
    (one_record (record_x (Number 0))) _ _ 1).
  - vm_compute. reflexivity.
  - reflexivity.
Defined.

(** ** Claims about registration and the frame of the operation *)



(** C10: an operation changes nothing but field ["x"] of the registered
    record, and the number it writes is a function of that field alone.
    In mutate01 a call of [mutate()] that returns (or that throws after
    its [Set]) has replaced ["x"] of the registered record and left
    [persist], the other fields and the other objects alone; in mutate03
    only the write step changes the heap, and only in ["x"] of the
    record the step read from, which after [start(r)] is [r] whatever
    the workers and the host's lock do. *)
Theorem mutation_frame :
  (∀ h (o o' : Obj), o !! key = o' !! key → x_of h o = x_of h o') ∧
  (∀ st rv st', V1.Mutate st = Returned rv st' →
     ∃ r o,
       persist st = Some r ∧ heap st !! r = Some o ∧
       persist st' = Some r ∧
       heap st' !! r = Some (<[key := Number (add42 (x_of (heap st) o))]> o) ∧
       same_but_x r (heap st) (heap st')) ∧
  (∀ st st', V1.Mutate st = Threw st' →
     ∃ r o,
       persist st = Some r ∧ heap st !! r = Some o ∧
       persist st' = Some r ∧
       heap st' !! r = Some (<[key := Number (add42 (x_of (heap st) o))]> o) ∧
       same_but_x r (heap st) (heap st')) ∧
  (∀ s t ev s', V3.mutate t s = Stepped ev s' →
     persist (V3.world s') = persist (V3.world s) ∧
     match ev with
     | EvWrite l c => same_but_x l (heap (V3.world s)) (heap (V3.world s'))
     | _ => heap (V3.world s') = heap (V3.world s)
     end) ∧
  (∀ st r o n sched, heap st !! r = Some o → Forall no_start sched →
     ∃ tr s,
       V3.exec (replicate (S n) (HostStart (Object r)) ++ sched) (V3.at_load st)
         = Some (tr, s) ∧
       persist (V3.world s) = Some r ∧
       same_but_x r (heap st) (heap (V3.world s)) ∧
       Forall (λ e, targets r e.2) tr).
Proof.
  assert (∀ st st', (∃ rv, V1.Mutate st = Returned rv st') ∨ V1.Mutate st = Threw st' →
     ∃ r o,
       persist st = Some r ∧ heap st !! r = Some o ∧
       persist st' = Some r ∧
       heap st' !! r = Some (<[key := Number (add42 (x_of (heap st) o))]> o) ∧
       same_but_x r (heap st) (heap st')) as Hcall.
  { intros st st' H. apply Mutate_inv in H as (r & o & Hp & Ho & ->).
    exists r, o. split; [done|]. split; [done|]. split; [done|].
    split; [by apply store_lookup|apply store_same_but_x]. }
  split; [|split; [|split; [|split]]].
  - intros h o o' H. unfold x_of. by rewrite H.
  - intros st rv st' H. apply Hcall. left. by exists rv.
  - intros st st' H. apply Hcall. by right.
  - intros s t ev s' H. apply V3_step_inv in H as (w & Hw & Hph).
    destruct (V3.phase w) as [| |[|l c|l c]].
    + destruct Hph as (-> & -> & _). done.
    + destruct Hph as (-> & -> & _). done.
    + destruct Hph as ((l & c & -> & _) & -> & _). done.
    + destruct Hph as (-> & -> & _). split; [done|apply store_same_but_x].
    + destruct Hph as (-> & -> & _). done.
  - intros st r o n sched Ho Hs.
    pose proof (V3_starts n r st) as Hst.
    pose proof Hst as (HL & _)%V3_reachable.
    destruct (V3_runs r o sched _ Hs HL eq_refl Ho) as (tr & s & He & _ & (Hp & _) & Hsb & Hev).
    { intros t w l c Hw. cbn [V3.workers] in Hw.
      by apply lookup_replicate_1 in Hw as [-> _]. }
    exists tr, s. split; [|done].
    unfold V3.exec in *. rewrite exec_app, Hst. cbn [mbind option_bind]. by rewrite He.
Qed.

(** C8 as stated fails: a call of [mutate()] before any [setup()] is
    told apart from a call that succeeds.  It does not return: the call
    goes through the empty handle and the process ends, so the script
    does not reach its next line. *)
Lemma mutate_before_setup :
  V1.Mutate (one_record (record_x (Number 0))) = Fault ∧
  (∀ rv st', V1.Mutate (one_record (record_x (Number 0))) ≠ Returned rv st') ∧
  V1.calls [V1.CallMutate; V1.CallSetup (Object 1%positive)]
    (one_record (record_x (Number 0))) = None.
Proof. split; [reflexivity|]. split; [by intros rv st'|reflexivity]. Qed.

(** C8 (as amended): [mutate()] makes no check and returns no value.  A
    call that returns returns [undefined]; on a registered record it
    returns whether or not the field is there (an absent field is
    overwritten with NaN like any other value), and it throws only when
    the field holds an object whose conversion to a number throws, the
    field being overwritten with NaN all the same.  With nothing
    registered the call goes through the empty handle: no thrown error
    and no return value but the end of the process.  The worker of
    mutate03 cannot fail to acquire the lock: it acquires it or
    waits. *)
Theorem mutate_signals_nothing :
  (∀ st st', V1.Mutate st = Threw st' →
     ∃ r o l ol,
       persist st = Some r ∧ heap st !! r = Some o ∧
       o !! key = Some (Object l) ∧ heap st !! l = Some ol ∧
       to_number ol = ConversionThrows ∧ st' = store r nan st) ∧
  (∀ st rv st', V1.Mutate st = Returned rv st' → rv = Undefined) ∧
  (∀ st r o, persist st = Some r → heap st !! r = Some o →
     (∀ l, o !! key ≠ Some (Object l)) →
     V1.Mutate st = Returned Undefined (store r (x_of (heap st) o) st)) ∧
  (∀ st r o, persist st = Some r → heap st !! r = Some o → o !! key = None →
     V1.Mutate st = Returned Undefined (store r nan st)) ∧
  (∀ h, V1.Mutate (mkState h None) = Fault) ∧
  (∀ t s w, V3.workers s !! t = Some w → V3.phase w = V3.AcquiringLock →
     V3.mutate t s = Blocked ∨ ∃ s', V3.mutate t s = Stepped EvAcquire s').
Proof.
  split; [|split; [|split; [|split; [|split]]]].
  - intros st st' H. pose proof H as Hinv.
    apply (λ H, Mutate_inv st st' (or_intror H)) in Hinv as (r & o & Hp & Ho & ->).
    rewrite (Mutate_registered st r o Hp Ho) in H.
    rewrite (load_throws_registered st r o Hp Ho) in H.
    unfold x_of, NumberValue. unfold NumberValue_throws in H.
    destruct (o !! key) as [[| | |d|l]|] eqn:Hx; simpl in H; try done.
    { by destruct b. }
    simpl. destruct (heap st !! l) as [ol|] eqn:Hl; [|done].
    destruct (to_number ol) eqn:Hn; [done|]. by exists r, o, l, ol.
  - intros st rv st' H. unfold V1.Mutate in H.
    destruct (load st) as [[??]|]; [|done]. destruct (load_throws st); by simplify_eq.
  - intros st r o Hp Ho Hx. rewrite (Mutate_registered st r o Hp Ho).
    rewrite (load_throws_registered st r o Hp Ho). unfold NumberValue_throws.
    destruct (o !! key) as [[| | |d|l]|] eqn:Hk; simpl; try done.
    + by destruct b.
    + by destruct (Hx l).
  - intros st r o Hp Ho Hx. rewrite (Mutate_registered st r o Hp Ho).
    rewrite (load_throws_registered st r o Hp Ho). unfold x_of. by rewrite Hx.
  - intros h. reflexivity.
  - intros t s w Hw Hph. unfold V3.mutate. rewrite Hw, Hph.
    destruct (V3.locker s); eauto.
Qed.

(** * Further properties *)

(** ** [setup] with something that is no object *)

Lemma arg_live_mono h h' cs :
  (∀ r, is_Some (h !! r) → is_Some (h' !! r)) →
  Forall (arg_live h) cs → Forall (arg_live h') cs.
Proof.
  intros Hlive H. eapply Forall_impl; [exact H|]. intros [[| | | |r]|]; simpl; auto.
Qed.

(** X1: a script of mutate01 ends the process exactly when it calls
    [mutate()] with nothing registered: before the first [setup()], or
    after a [setup()] that got [undefined] or [null] (so also no
    argument), which throws and empties the handle even when a record
    was registered.  Every other script runs to its end. *)
Theorem script_dies_iff (cs : list V1.Call) :
  ∀ st : State,
    handle_live st → Forall (arg_live (heap st)) cs →
    (V1.calls cs st = None ↔
     mutates_unregistered (bool_decide (is_Some (persist st))) cs = true).
Proof.
  induction cs as [|[arg|] cs IH]; intros st Hh Hargs; [done| |].
  - apply Forall_cons in Hargs as [Harg Hargs]. simpl. unfold V1.Setup.
    destruct (ToObject arg (heap st)) as [o h] eqn:Hto.
    assert (Forall (arg_live h) cs) as Hargs'.
    { eapply arg_live_mono; [|exact Hargs].
      intros r [x Hx]. exists x. by eapply ToObject_preserves. }
    assert (handle_live (mkState h o) ∧
            bool_decide (is_Some o) = match arg with Undefined | Null => false | _ => true end)
      as [Hh' Hreg].
    { destruct arg as [| | | |r]; simpl in Hto; injection Hto as <- <-; try done.
      all: split; [|done]; unfold handle_live; simpl; by rewrite lookup_insert_eq. }
    rewrite <- Hreg. destruct o; by apply (IH (mkState h _)).
  - apply Forall_cons in Hargs as [_ Hargs]. unfold handle_live in Hh.
    destruct (persist st) as [r|] eqn:Hp.
    + destruct Hh as [o Ho]. rewrite (calls_Mutate st r o cs Hp Ho).
      rewrite bool_decide_true by done. cbn [mutates_unregistered].
      rewrite (IH (store r (x_of (heap st) o) st)).
      * change (persist (store r (x_of (heap st) o) st)) with (persist st). rewrite Hp.
        by rewrite bool_decide_true.
      * unfold handle_live.
        change (persist (store r (x_of (heap st) o) st)) with (persist st).
        rewrite Hp. apply store_is_Some. by exists o.
      * eapply arg_live_mono; [|exact Hargs]. intros l. apply store_is_Some.
    + simpl. unfold V1.Mutate, load. rewrite Hp. done.
Qed.

Lemma script_dies_iff_witness :
  V1.calls [V1.CallSetup (Object 1%positive); V1.CallMutate;
            V1.CallSetup Undefined; V1.CallMutate; V1.CallMutate]
    (one_record (record_x (Number 0))) = None.
Proof.
  apply (script_dies_iff
           [V1.CallSetup (Object 1%positive); V1.CallMutate;
            V1.CallSetup Undefined; V1.CallMutate; V1.CallMutate]
           (one_record (record_x (Number 0)))).
  - exact I.
  - repeat constructor. simpl. by eexists.
  - reflexivity.
Defined.

(** X2: [setup()] with a number or a boolean registers a fresh wrapper
    object.  The [mutate()] calls that follow run to the end, change no
    object that was there, and leave ["x"] of the wrapper at NaN. *)
Theorem setup_boxes_primitive (st : State) (v : Value) (k : nat) :
  boxed v →
  ∃ st' w,
    V1.calls (V1.CallSetup v :: replicate k V1.CallMutate) st = Some st' ∧
    persist st' = Some w ∧
    heap st !! w = None ∧
    (∀ l o, heap st !! l = Some o → heap st' !! l = Some o) ∧
    (0 < k → field st' w key = Some (Number nan)).
Proof.
  intros Hv.
  destruct (ToObject v (heap st)) as [[w|] h'] eqn:Hto; [|by destruct v].
  destruct (ToObject_fresh _ _ _ _ Hto Hv) as [Hw ->].
  destruct (Mutate_k k (mkState (<[w := wrapper v]> (heap st)) (Some w)) w (wrapper v) eq_refl)
    as (st' & o' & Hc & Hp & (Hf & _) & Ho' & _ & Hk).
  { apply lookup_insert_eq. }
  exists st', w. split.
  { simpl. unfold V1.Setup. rewrite Hto. exact Hc. }
  split; [done|]. split; [done|]. split.
  - intros l o Hl. assert (l ≠ w) by congruence.
    rewrite Hf by done. simpl. by rewrite lookup_insert_ne.
  - intros H0. rewrite (field_lookup _ _ _ Ho'), (Hk H0).
    change (x_of _ (wrapper v)) with nan. by rewrite increments_nan.
Qed.

Lemma setup_boxes_primitive_witness :
  ∃ st' w,
    V1.calls (V1.CallSetup (Number 5) :: replicate 2 V1.CallMutate)
      (one_record (record_x (Number 3))) = Some st' ∧
    persist st' = Some w ∧
    heap (one_record (record_x (Number 3))) !! w = None ∧
    (∀ l o, heap (one_record (record_x (Number 3))) !! l = Some o →
            heap st' !! l = Some o) ∧
    (0 < 2 → field st' w key = Some (Number nan)).
Proof.
  apply (setup_boxes_primitive (one_record (record_x (Number 3))) (Number 5) 2).
  exact I.
Defined.

(** ** What the field counts from *)

(** X3: [null] and [false] in field ["x"] count as 0 and [true] as 1:
    after [k >= 1] calls of [mutate()] the field holds the number
    [42*k], respectively [1 + 42*k] (below 2^53). *)
Theorem null_and_booleans_count (st : State) (r : loc) (o : Obj)
    (v : Value) (n : Z) (k : nat) :
  persist st = Some r → heap st !! r = Some o → o !! key = Some v →
  coerced v = Some n → (n + 42 * Z.of_nat (S k) < 2 ^ 53)%Z →
  ∃ st',
    V1.calls (replicate (S k) V1.CallMutate) st = Some st' ∧
    field st' r key = Some (Number (float_of_Z (n + 42 * Z.of_nat (S k)))).
Proof.
  intros Hp Ho Hx Hv Hlt.
  destruct (Mutate_k (S k) st r o Hp Ho) as (st' & o' & Hc & _ & _ & Ho' & _ & Hk).
  exists st'. split; [done|].
  assert (x_of (heap st) o = float_of_Z n ∧ (0 ≤ n)%Z) as [Hn H0].
  { unfold x_of. rewrite Hx. simpl.
    destruct v as [| |[|]| |]; simpl in Hv; by simplify_eq. }
  rewrite Hn, increments_exact in Hk by done.
  rewrite (field_lookup _ _ _ Ho'), Hk by lia. done.
Qed.

Lemma null_and_booleans_count_witness :
  ∃ st',
    V1.calls (replicate 3 V1.CallMutate)
      (mkState {[ 1%positive := record_x (Boolean true) ]} (Some 1%positive)) = Some st' ∧
    field st' 1%positive key = Some (Number (float_of_Z (1 + 42 * Z.of_nat 3))).
Proof.
  apply (null_and_booleans_count
           (mkState {[ 1%positive := record_x (Boolean true) ]} (Some 1%positive))
           1%positive (record_x (Boolean true)) (Boolean true) 1 2);
    reflexivity.
Defined.

(** X4: NaN and the two infinities are where the field stays: when the
    numeric value of ["x"] is one of them (NaN is what [undefined]
    gives, and an object whose conversion to a number gives NaN or
    throws; an object that converts to a finite number counts from that
    number), every [mutate()] writes that value back as a number. *)
Theorem non_finite_absorbs (st : State) (r : loc) (o : Obj) (k : nat) :
  persist st = Some r → heap st !! r = Some o →
  x_of (heap st) o = nan ∨ x_of (heap st) o = infinity ∨ x_of (heap st) o = neg_infinity →
  ∃ st',
    V1.calls (replicate (S k) V1.CallMutate) st = Some st' ∧
    field st' r key = Some (Number (x_of (heap st) o)).
Proof.
  intros Hp Ho Hx.
  destruct (Mutate_k (S k) st r o Hp Ho) as (st' & o' & Hc & _ & _ & Ho' & _ & Hk).
  exists st'. split; [done|].
  rewrite increments_fixed in Hk by (destruct Hx as [->|[->| ->]]; reflexivity).
  rewrite (field_lookup _ _ _ Ho'), Hk by lia. done.
Qed.

Lemma non_finite_absorbs_witness :
  ∃ st',
    V1.calls (replicate 2 V1.CallMutate) throwing_x = Some st' ∧
    field st' 1%positive key =
      Some (Number (x_of (heap throwing_x) (record_x (Object 2%positive)))).
Proof.
  apply (non_finite_absorbs throwing_x 1%positive (record_x (Object 2%positive)) 1);
    [reflexivity|reflexivity|].
  left. reflexivity.
Defined.

(** X5: A field at 2^59 or above (a finite positive double of exponent
    7 or more) is never changed by [mutate()]: each call reads it, adds
    42, rounds back to the value read, and writes that. *)
Theorem large_values_stay (st : State) (r : loc) (o : Obj)
    (m : positive) (e : Z) (k : nat) :
  persist st = Some r → heap st !! r = Some o →
  Prim2SF (x_of (heap st) o) = S754_finite false m e → (7 ≤ e)%Z →
  ∃ st',
    V1.calls (replicate (S k) V1.CallMutate) st = Some st' ∧
    field st' r key = Some (Number (x_of (heap st) o)).
Proof.
  intros Hp Ho Hx He.
  destruct (Mutate_k (S k) st r o Hp Ho) as (st' & o' & Hc & _ & _ & Ho' & _ & Hk).
  exists st'. split; [done|].
  rewrite increments_fixed in Hk by (by eapply add42_saturated).
  rewrite (field_lookup _ _ _ Ho'), Hk by lia. done.
Qed.

Lemma large_values_stay_witness :
  ∃ st',
    V1.calls (replicate 3 V1.CallMutate)
      (mkState {[ 1%positive := record_x (Number 0x1p59) ]} (Some 1%positive))
      = Some st' ∧
    field st' 1%positive key =
      Some (Number (x_of (heap (one_record (record_x (Number 0x1p59))))
                      (record_x (Number 0x1p59)))).
Proof.
  apply (large_values_stay
           (mkState {[ 1%positive := record_x (Number 0x1p59) ]} (Some 1%positive))
           1%positive (record_x (Number 0x1p59)) 4503599627370496 7 2);
    [reflexivity|reflexivity|reflexivity|lia].
Defined.

(** ** Workers and the lock *)

(** X6: every [start()] call spawns one worker, also a call that
    throws, and no worker ever leaves its loop: in mutate02 and in
    mutate03 the number of workers after a schedule is the number of
    [start()] calls in it. *)
Theorem one_worker_per_start :
  (∀ sched st tr s, V2.exec sched (V2.at_load st) = Some (tr, s) →
                    length (V2.workers s) = starts sched) ∧
  (∀ sched st tr s, V3.exec sched (V3.at_load st) = Some (tr, s) →
                    length (V3.workers s) = starts sched).
Proof.
  split; intros sched st tr s He.
  - by rewrite (exec_workers _ _ _ _ (λ s, length (V2.workers s)) V2_act_workers _ _ _ _ He).
  - by rewrite (exec_workers _ _ _ _ (λ s, length (V3.workers s)) V3_act_workers _ _ _ _ He).
Qed.

(** X7: mutate03 as the files run it stands still.  The script that
    calls [start()] runs on the host thread, which holds the isolate's
    lock and gives it up nowhere.  Every schedule of [start()] calls and
    worker steps runs to its end with the lock still the host's, every
    object as it was, and nothing logged but wakes, at most one per
    worker: a worker that has woken waits for the lock, and its next
    step is blocked. *)
Theorem V3_workers_wait_for_host (st : State) (sched : list Action) :
  Forall of_the_files sched →
  ∃ tr s,
    V3.exec sched (V3.at_load st) = Some (tr, s) ∧
    V3.locker s = Some Host ∧
    (∀ l o, heap st !! l = Some o → heap (V3.world s) !! l = Some o) ∧
    Forall (λ e, e.2 = EvSleep) tr ∧
    writes tr = 0 ∧
    (∀ t, length (events_of t tr) ≤ 1) ∧
    (∀ t, events_of t tr = [EvSleep] → V3.mutate t s = Blocked).
Proof.
  intros Hsched.
  destruct (V3_standstill st sched Hsched) as (tr & s & He & Hl & Hh & Hsl & Hws).
  exists tr, s. split; [done|]. split; [done|]. split; [done|]. split; [done|].
  split; [by apply writes_sleeps|]. split; [intros t; by eapply waiting_length|].
  intros t Ht. specialize (Hws t). unfold V3.mutate.
  destruct (V3.workers s !! t) as [w|]; [|congruence].
  destruct Hws as [_ [?|[_ ->]]]; [congruence|]. by rewrite Hl.
Qed.

Lemma V3_workers_wait_for_host_witness :
  ∃ tr s,
    V3.exec [HostStart (Object 1%positive); Run 0; Run 0; HostStart (Object 1%positive);
             Run 1; Run 0; Run 1]
      (V3.at_load (one_record (record_x (Number 0)))) = Some (tr, s) ∧
    V3.locker s = Some Host ∧
    (∀ l o, heap (one_record (record_x (Number 0))) !! l = Some o →
            heap (V3.world s) !! l = Some o) ∧
    Forall (λ e, e.2 = EvSleep) tr ∧
    writes tr = 0 ∧
    (∀ t, length (events_of t tr) ≤ 1) ∧
    (∀ t, events_of t tr = [EvSleep] → V3.mutate t s = Blocked).
Proof.
  apply (V3_workers_wait_for_host (one_record (record_x (Number 0)))
           [HostStart (Object 1%positive); Run 0; Run 0; HostStart (Object 1%positive);
            Run 1; Run 0; Run 1]).
  repeat constructor.
Defined.

(** X8: in mutate03 an object that exists changes only under the lock.
    Whatever a schedule has reached, an action (a call of [start()] with
    any argument, a step of a worker, the host giving up or taking the
    lock) either leaves every existing object as it is, or is the write
    of the worker that holds the lock and goes on holding it. *)
Theorem V3_changes_under_lock :
  ∀ sched st tr s a tr' s',
    V3.exec sched (V3.at_load st) = Some (tr, s) →
    act3 a s = Some (tr', s') →
    (∀ l o, heap (V3.world s) !! l = Some o → heap (V3.world s') !! l = Some o) ∨
    (∃ t l c, a = Run t ∧ tr' = [(Spawned t, EvWrite l c)] ∧
              V3.locker s = Some (Spawned t) ∧ V3.locker s' = Some (Spawned t)).
Proof.
  intros sched st tr s a tr' s' He Hact.
  apply V3_reachable in He as ([H1 H2] & _ & _).
  destruct a as [arg| | |t]; simpl in Hact.
  - left. unfold V3.Start in Hact. destruct (HandleScope _ _); [|done].
    destruct (ToObject arg (heap (V3.world s))) as [o h] eqn:Hto.
    intros l x Hl. pose proof (ToObject_preserves _ _ _ _ _ _ Hto Hl).
    by destruct o; injection Hact as <- <-.
  - left. by case_bool_decide; simplify_eq.
  - left. by destruct (V3.locker s); simplify_eq.
  - destruct (V3.mutate t s) as [ev s1| | |] eqn:Hstep; simplify_eq; try by left.
    apply V3_step_inv in Hstep as (w & Hw & Hph).
    destruct (V3.phase w) as [| |[|l c|l c]] eqn:Hp.
    + left. destruct Hph as (_ & -> & _). done.
    + left. destruct Hph as (_ & -> & _). done.
    + left. destruct Hph as (_ & -> & _). done.
    + right. destruct Hph as (-> & _ & Hl). exists t, l, c.
      assert (V3.locker s = Some (Spawned t)) by (apply (H1 _ _ Hw); by rewrite Hp).
      split; [done|]. split; [done|]. split; congruence.
    + left. destruct Hph as (_ & -> & _). done.
Qed.

Lemma V3_changes_under_lock_witness :
  ∃ tr s tr' s',
    V3.exec [HostStart (Object 1%positive); HostUnlock; Run 0; Run 0; Run 0]
      (V3.at_load (one_record (record_x (Number 0)))) = Some (tr, s) ∧
    act3 (Run 0) s = Some (tr', s') ∧
    ((∀ l o, heap (V3.world s) !! l = Some o → heap (V3.world s') !! l = Some o) ∨
     (∃ t l c, Run 0 = Run t ∧ tr' = [(Spawned t, EvWrite l c)] ∧
               V3.locker s = Some (Spawned t) ∧ V3.locker s' = Some (Spawned t))).
Proof.
  eexists _, _, _, _. split; [vm_compute; reflexivity|].
  split; [vm_compute; reflexivity|].
  refine (V3_changes_under_lock
    [HostStart (Object 1%positive); HostUnlock; Run 0; Run 0; Run 0]
    (one_record (record_x (Number 0))) _ _ (Run 0) _ _ _ _); vm_compute; reflexivity.
Defined.

(** ** The lock in other hands *)

(** X9: while the isolate's lock is held and no worker is inside the
    scope of its [locker] (the holder is another thread, the host say),
    the workers of mutate03 do nothing but wake up and wait: every
    schedule of worker steps runs to its end, leaves the heap, the
    handle and the lock as they were, and logs at most one event per
    worker, a wake. *)
Theorem V3_waits_for_the_lock (s0 : V3.Sys) (h : Thread) (sched : list Action) :
  V3.locker s0 = Some h →
  (∀ t w, V3.workers s0 !! t = Some w → V3.in_cs (V3.phase w) = false) →
  Forall worker_only sched →
  ∃ tr s,
    V3.exec sched s0 = Some (tr, s) ∧
    V3.world s = V3.world s0 ∧ V3.locker s = Some h ∧
    Forall (λ e, e.2 = EvSleep) tr ∧
    (∀ t, length (events_of t tr) ≤ 1).
Proof.
  intros Hl Hout Hsched.
  destruct (V3_waits s0 h sched Hl Hout Hsched) as (tr & s & He & Hw & Hl' & Hsl & Hws).
  exists tr, s. split; [done|]. split; [done|]. split; [done|]. split; [done|].
  intros t. by eapply waiting_length.
Qed.

Lemma V3_waits_for_the_lock_witness :
  ∃ tr s,
    V3.exec [Run 0; Run 1; Run 0; Run 0; Run 1]
      (V3.mkSys (mkState {[ 1%positive := record_x (Number 0) ]} (Some 1%positive))
         (Some Host) [V3.mkWorker V3.Sleeping 0; V3.mkWorker V3.Sleeping 0]) = Some (tr, s) ∧
    V3.world s = mkState {[ 1%positive := record_x (Number 0) ]} (Some 1%positive) ∧
    V3.locker s = Some Host ∧
    Forall (λ e, e.2 = EvSleep) tr ∧
    (∀ t, length (events_of t tr) ≤ 1).
Proof.
  apply (V3_waits_for_the_lock
           (V3.mkSys (mkState {[ 1%positive := record_x (Number 0) ]} (Some 1%positive))
              (Some Host) [V3.mkWorker V3.Sleeping 0; V3.mkWorker V3.Sleeping 0])
           Host [Run 0; Run 1; Run 0; Run 0; Run 1]).
  - reflexivity.
  - intros [|[|t]] w; simpl; [by intros [= <-]..|done].
  - repeat constructor.
Defined.

(** ** [start] with something that is no object *)

Section StartWithoutObject.

Lemma V3_unregistered_act (w0 : State) a s tr :
  worker_only a →
  V3.world s = w0 ∧ V3.locker s = Some Host ∧
    ((V3.workers s = [V3.mkWorker V3.Sleeping 0] ∧ tr = []) ∨
     (V3.workers s = [V3.mkWorker V3.AcquiringLock 0] ∧ tr = [(Spawned 0, EvSleep)])) →
  ∃ tr' s', act3 a s = Some (tr', s') ∧
    V3.world s' = w0 ∧ V3.locker s' = Some Host ∧
    ((V3.workers s' = [V3.mkWorker V3.Sleeping 0] ∧ tr ++ tr' = []) ∨
     (V3.workers s' = [V3.mkWorker V3.AcquiringLock 0] ∧
      tr ++ tr' = [(Spawned 0, EvSleep)])).
Proof.
  intros Ha (Hw & Hl & Hcases). destruct a as [arg| | |t]; try done.
  simpl. unfold V3.mutate. destruct t as [|t].
  - destruct Hcases as [(Hws & ->)|(Hws & ->)]; rewrite Hws; simpl.
    + eexists _, _. split; [done|]. split; [done|]. split; [done|]. by right.
    + rewrite Hl. eexists _, _. split; [done|]. split; [done|]. split; [done|]. by right.
  - assert (V3.workers s !! S t = None) as ->.
    { destruct Hcases as [(-> & _)|(-> & _)]; done. }
    eexists _, _. split; [done|]. by rewrite (right_id_L [] (++)).
Qed.

Lemma V2_unregistered_act (w0 : State) a (s : V2.Sys) tr tr' s' :
  worker_only a →
  V2.world s = w0 ∧ V2.locker s = Some Host ∧
    ((V2.workers s = [V2.Sleeping] ∧ tr = []) ∨
     (V2.workers s = [V2.Woken] ∧ tr = [(Spawned 0, EvSleep)])) →
  act2 a s = Some (tr', s') →
  V2.world s' = w0 ∧ V2.locker s' = Some Host ∧
    ((V2.workers s' = [V2.Sleeping] ∧ tr ++ tr' = []) ∨
     (V2.workers s' = [V2.Woken] ∧ tr ++ tr' = [(Spawned 0, EvSleep)])).
Proof.
  intros Ha (Hw & Hl & Hcases) Hact. destruct a as [arg| | |t]; try done.
  simpl in Hact. unfold V2.mutate, HandleScope in Hact.
  destruct t as [|t].
  - destruct Hcases as [(Hws & ->)|(Hws & ->)].
    all: rewrite Hws in Hact; simpl in Hact.
    + injection Hact as <- <-. simpl. split; [done|]. split; [done|]. by right.
    + by rewrite Hl in Hact.
  - assert (V2.workers s !! S t = None) as Hnone.
    { destruct Hcases as [(-> & _)|(-> & _)]; done. }
    rewrite Hnone in Hact. injection Hact as <- <-. rewrite (right_id_L [] (++)). done.
Qed.

(** X10: [start()] with [undefined] or [null] (so also with no
    argument) throws and spawns its worker all the same, on an empty
    handle.  In mutate03 as the files run it the worker wakes and waits
    for the lock the host holds: every schedule of its steps runs to
    its end, logs the wake at most and leaves the heap and the empty
    handle as they were.  Were the host to give the lock up, the third
    step of the worker, the read through the empty handle, would end
    the process.  In mutate02 a schedule that the process survives has
    logged the wake at most and left the heap as it was; the second
    step of the worker, its [HandleScope], ends the process. *)
Theorem start_without_object (arg : Value) (st : State) (sched : list Action) :
  arg = Undefined ∨ arg = Null → Forall worker_only sched →
  V2.Start arg (V2.at_load st) =
    Threw (V2.mkSys (mkState (heap st) None) (Some Host) [V2.Sleeping]) ∧
  V3.Start arg (V3.at_load st) =
    Threw (V3.mkSys (mkState (heap st) None) (Some Host) [V3.mkWorker V3.Sleeping 0]) ∧
  (∃ tr s, V3.exec (HostStart arg :: sched) (V3.at_load st) = Some (tr, s) ∧
     V3.world s = mkState (heap st) None ∧ V3.locker s = Some Host ∧
     tr `prefix_of` [(Spawned 0, EvSleep)]) ∧
  V3.exec (HostStart arg :: HostUnlock :: Run 0 :: Run 0 :: Run 0 :: sched) (V3.at_load st)
    = None ∧
  (∀ tr s, V2.exec (HostStart arg :: sched) (V2.at_load st) = Some (tr, s) →
     V2.world s = mkState (heap st) None ∧ tr `prefix_of` [(Spawned 0, EvSleep)]) ∧
  V2.exec (HostStart arg :: Run 0 :: Run 0 :: sched) (V2.at_load st) = None.
Proof.
  intros Harg Hsched.
  assert (V2.Start arg (V2.at_load st) =
          Threw (V2.mkSys (mkState (heap st) None) (Some Host) [V2.Sleeping])) as H2.
  { by destruct Harg as [-> | ->]. }
  assert (V3.Start arg (V3.at_load st) =
          Threw (V3.mkSys (mkState (heap st) None) (Some Host) [V3.mkWorker V3.Sleeping 0]))
    as H3.
  { by destruct Harg as [-> | ->]. }
  split; [done|]. split; [done|].
  split; [|split; [|split]].
  - destruct (exec_total V3.Start V3.mutate V3.locker V3.with_locker worker_only
                (λ tr s, V3.world s = mkState (heap st) None ∧ V3.locker s = Some Host ∧
                   ((V3.workers s = [V3.mkWorker V3.Sleeping 0] ∧ tr = []) ∨
                    (V3.workers s = [V3.mkWorker V3.AcquiringLock 0] ∧
                     tr = [(Spawned 0, EvSleep)])))
                (λ tr s a Ha HP, V3_unregistered_act (mkState (heap st) None) a s tr Ha HP)
                sched []
                (V3.mkSys (mkState (heap st) None) (Some Host) [V3.mkWorker V3.Sleeping 0])
                Hsched) as (tr & s & He & Hw & Hl & Hcases).
    { split; [done|]. split; [done|]. by left. }
    exists tr, s. split.
    { unfold V3.exec in *. by rewrite exec_HostStart, H3. }
    split; [done|]. split; [done|]. simpl in Hcases.
    destruct Hcases as [(_ & ->)|(_ & ->)]; [apply prefix_nil|done].
  - unfold V3.exec. by rewrite exec_HostStart, H3.
  - intros tr s He. unfold V2.exec in He. rewrite exec_HostStart, H2 in He.
    destruct (exec_invariant V2.Start V2.mutate V2.locker V2.with_locker worker_only
                (λ tr s, V2.world s = mkState (heap st) None ∧ V2.locker s = Some Host ∧
                   ((V2.workers s = [V2.Sleeping] ∧ tr = []) ∨
                    (V2.workers s = [V2.Woken] ∧ tr = [(Spawned 0, EvSleep)])))
                (λ tr s a tr' s' Ha HP Hact,
                   V2_unregistered_act (mkState (heap st) None) a s tr tr' s' Ha HP Hact)
                sched [] (V2.mkSys (mkState (heap st) None) (Some Host) [V2.Sleeping])
                tr s Hsched)
      as (Hw & _ & Hcases); [by split; [|split; [|left]]|done|].
    split; [done|]. simpl in Hcases. destruct Hcases as [(_ & ->)|(_ & ->)].
    + apply prefix_nil.
    + done.
  - unfold V2.exec. by rewrite exec_HostStart, H2.
Qed.

Lemma start_without_object_witness :
  V3.exec [HostStart Undefined; HostUnlock; Run 0; Run 0; Run 0; Run 0]
    (V3.at_load (one_record (record_x (Number 0)))) = None.
Proof.
  eapply proj1. eapply proj2. eapply proj2. eapply proj2.
  apply (start_without_object Undefined (one_record (record_x (Number 0))) [Run 0]).
  - left. reflexivity.
  - repeat constructor.
Defined.

End StartWithoutObject.

(** ** Every interleaving *)

Section Interleavings.

(** X11: mutate03 with any number of workers on one live record, under
    every interleaving of their steps and of the host giving up and
    taking the lock: the schedule runs to its end and the field has
    taken exactly one addition of 42 per logged write.  When it started
    from a non-negative integer [a] and the sum stays below 2^53, it
    holds [a + 42 * writes]: no update is lost. *)
Theorem V3_counts_every_write (st : State) (r : loc) (o : Obj)
    (n : nat) (sched : list Action) :
  heap st !! r = Some o → Forall no_start sched →
  ∃ tr s o',
    V3.exec (replicate (S n) (HostStart (Object r)) ++ sched) (V3.at_load st) = Some (tr, s) ∧
    heap (V3.world s) !! r = Some o' ∧
    x_of (heap (V3.world s)) o' = increments (writes tr) (x_of (heap st) o) ∧
    (∀ a, x_of (heap st) o = float_of_Z a → (0 ≤ a)%Z →
          (a + 42 * Z.of_nat (writes tr) < 2 ^ 53)%Z →
          x_of (heap (V3.world s)) o' = float_of_Z (a + 42 * Z.of_nat (writes tr))).
Proof.
  intros Ho Hsched.
  pose proof (V3_starts n r st) as Hst.
  pose proof Hst as (HL & _)%V3_reachable.
  destruct (V3_runs r o sched _ Hsched HL eq_refl Ho) as (tr & s & He & _).
  { intros t w l c Hw. cbn [V3.workers] in Hw.
    by apply lookup_replicate_1 in Hw as [-> _]. }
  assert (V3.exec (replicate (S n) (HostStart (Object r)) ++ sched) (V3.at_load st)
          = Some (tr, s)) as Hex.
  { unfold V3.exec in *. rewrite exec_app, Hst. cbn [mbind option_bind]. by rewrite He. }
  destruct (V3_serialized st r o n sched tr s Ho Hsched Hex) as (o' & Ho' & Hx & _).
  exists tr, s, o'. split; [done|]. split; [done|]. split; [done|].
  intros a Ha H0 Hlt. by rewrite Hx, Ha, increments_exact.
Qed.

Lemma V3_counts_every_write_witness :
  ∃ tr s o',
    V3.exec (replicate 2 (HostStart (Object 1%positive)) ++
             [HostUnlock; Run 0; Run 1; Run 1; Run 0; Run 1; Run 1; Run 1; Run 0])
      (V3.at_load (one_record (record_x (Number 0)))) = Some (tr, s) ∧
    heap (V3.world s) !! 1%positive = Some o' ∧
    x_of (heap (V3.world s)) o' =
      increments (writes tr)
        (x_of (heap (one_record (record_x (Number 0)))) (record_x (Number 0))) ∧
    (∀ a, x_of (heap (one_record (record_x (Number 0)))) (record_x (Number 0)) = float_of_Z a →
          (0 ≤ a)%Z → (a + 42 * Z.of_nat (writes tr) < 2 ^ 53)%Z →
          x_of (heap (V3.world s)) o' = float_of_Z (a + 42 * Z.of_nat (writes tr))).
Proof.
  apply (V3_counts_every_write (one_record (record_x (Number 0))) 1%positive
           (record_x (Number 0)) 1
           [HostUnlock; Run 0; Run 1; Run 1; Run 0; Run 1; Run 1; Run 1; Run 0]).
  - reflexivity.
  - repeat constructor.
Defined.

(** X12: a worker of mutate02 never gets to its operation.  It takes no
    lock, so the [HandleScope] that opens the body of its loop is
    entered by a thread that does not hold the isolate's lock, and that
    ends the process.  Along every schedule that the process survives
    nothing is read or written, every object is as it was and a worker
    has logged its wake at most; a worker that has woken ends the
    process with its next step, and so does the second step of the
    first worker, whatever [start()] was called with. *)
Theorem V2_worker_dies_at_scope (sched : list Action) (st : State) :
  (∀ tr s, V2.exec sched (V2.at_load st) = Some (tr, s) →
     Forall (λ e, ¬ touches_engine e.2) tr ∧
     writes tr = 0 ∧
     (∀ l o, heap st !! l = Some o → heap (V2.world s) !! l = Some o) ∧
     (∀ t, length (events_of t tr) ≤ 1) ∧
     (∀ t, events_of t tr = [EvSleep] →
           HandleScope (V2.locker s) (Spawned t) = false ∧ V2.mutate t s = Crashed)) ∧
  (∀ arg, V2.exec (HostStart arg :: Run 0 :: Run 0 :: sched) (V2.at_load st) = None).
Proof.
  split.
  - intros tr s He. pose proof (V2_reachable _ _ _ _ He) as Hinv.
    pose proof Hinv as (Hl & Hph & Hh & Hev).
    split; [done|]. split; [by apply writes_untouched|]. split; [done|]. split.
    + intros t. specialize (Hph t).
      destruct (V2.workers s !! t) as [[| |l c]|]; [| |done|]; rewrite Hph; simpl; lia.
    + intros t Ht. specialize (Hph t).
      destruct (V2.workers s !! t) as [[| |l c]|] eqn:Hw; [congruence| |done|congruence].
      split; [|by eapply V2_woken_dies].
      unfold HandleScope. by rewrite bool_decide_false by apply Hl.
  - intros arg. unfold V2.exec. rewrite exec_HostStart.
    unfold V2.Start, HandleScope. cbn [V2.at_load V2.locker V2.world V2.workers heap].
    rewrite bool_decide_true by done.
    by destruct (ToObject arg (heap st)) as [[l|] h].
Qed.

End Interleavings.

(** ** Scripts of mutate01 that register more than one record *)

Section Credits.

Lemma script_ok_live h h' cur cs :
  (∀ r, is_Some (h !! r) → is_Some (h' !! r)) →
  script_ok h cur cs = true → script_ok h' cur cs = true.
Proof.
  intros Hlive. revert cur. induction cs as [|[arg|] cs IH]; intros cur; simpl; [done| |].
  - destruct arg as [| | | |r]; try done.
    destruct (h !! r) as [o|] eqn:Hr; [|done].
    destruct (Hlive r) as [o' ->]; [by exists o|]. apply IH.
  - destruct cur as [r|]; simpl; [|done].
    destruct (h !! r) as [o|] eqn:Hr; [|done].
    destruct (Hlive r) as [o' ->]; [by exists o|]. apply IH.
Qed.

(** X14: a script of mutate01 that registers one live record after the
    other runs to its end, and every [mutate()] counts for the record
    of the last [setup] before it and for no other: each record has
    taken one addition of 42 per call made while it was the registered
    one, and none of its other fields has changed. *)
Theorem mutate_credits_registered (cs : list V1.Call) :
  ∀ st : State,
    script_ok (heap st) (persist st) cs = true →
    ∃ st',
      V1.calls cs st = Some st' ∧
      ∀ l o, heap st !! l = Some o →
        ∃ o', heap st' !! l = Some o' ∧
              x_of (heap st') o' = increments (credits l (persist st) cs) (x_of (heap st) o) ∧
              ∀ k, k ≠ key → o' !! k = o !! k.
Proof.
  induction cs as [|[arg|] cs IH]; intros st Hok; simpl in Hok.
  - exists st. split; [done|]. intros l o Hl. by exists o.
  - destruct arg as [| | | |r]; try done.
    destruct (heap st !! r) as [or|] eqn:Hr; [|done].
    destruct (IH (mkState (heap st) (Some r)) Hok) as (st' & Hc & Hst').
    exists st'. split; [exact Hc|]. exact Hst'.
  - destruct (persist st) as [r|] eqn:Hp; simpl in Hok; [|done].
    destruct (heap st !! r) as [or|] eqn:Hr; [|done].
    set (c := x_of (heap st) or).
    pose proof (store_lookup r c st or Hr) as Hr1.
    destruct (IH (store r c st)) as (st' & Hc & Hst').
    { change (persist (store r c st)) with (persist st).
      rewrite Hp. eapply script_ok_live; [|exact Hok].
      intros l [o Hl]. destruct (decide (l = r)) as [->|Hne]; [by eexists|].
      exists o. by rewrite store_lookup_ne. }
    exists st'. split.
    { by rewrite (calls_Mutate st r or cs Hp Hr). }
    intros l o Hl. cbn [credits]. destruct (decide (l = r)) as [->|Hne].
    + simplify_eq. destruct (Hst' _ _ Hr1) as (o' & Ho' & Hx & Hk).
      exists o'. split; [done|]. split.
      * rewrite Hx, x_of_insert.
        change (persist (store r c st)) with (persist st).
        rewrite Hp, decide_True by done. apply increments_shift.
      * intros k Hne. rewrite Hk by done. by rewrite obj_lookup_insert_ne.
    + destruct (Hst' l o) as (o' & Ho' & Hx & Hk); [by rewrite store_lookup_ne|].
      exists o'. split; [done|]. split; [|done].
      rewrite Hx, x_of_store.
      change (persist (store r c st)) with (persist st).
      rewrite Hp, decide_False by congruence. done.
Qed.

Lemma mutate_credits_registered_witness :
  ∃ st',
    V1.calls [V1.CallSetup (Object 1%positive); V1.CallMutate;
              V1.CallSetup (Object 2%positive); V1.CallMutate; V1.CallMutate;
              V1.CallSetup (Object 1%positive); V1.CallMutate]
      (two_records (record_x (Number 0)) (record_x (Number 100))) = Some st' ∧
    ∀ l o, heap (two_records (record_x (Number 0)) (record_x (Number 100))) !! l = Some o →
      ∃ o', heap st' !! l = Some o' ∧
            x_of (heap st') o' =
              increments
                (credits l (persist (two_records (record_x (Number 0)) (record_x (Number 100))))
                   [V1.CallSetup (Object 1%positive); V1.CallMutate;
                    V1.CallSetup (Object 2%positive); V1.CallMutate; V1.CallMutate;
                    V1.CallSetup (Object 1%positive); V1.CallMutate])
                (x_of (heap (two_records (record_x (Number 0)) (record_x (Number 100)))) o) ∧
            ∀ k, k ≠ key → o' !! k = o !! k.
Proof.
  apply (mutate_credits_registered
           [V1.CallSetup (Object 1%positive); V1.CallMutate;
            V1.CallSetup (Object 2%positive); V1.CallMutate; V1.CallMutate;
            V1.CallSetup (Object 1%positive); V1.CallMutate]
           (two_records (record_x (Number 0)) (record_x (Number 100)))).
  vm_compute. reflexivity.
Defined.

End Credits.

(** ** Entering the isolate *)

Section Entries.

(** X15: a worker of mutate03 calls [isolate->Enter()] in every pass
    and never [Exit()]: its entries are never taken back.  At any point
    of a schedule its count is the number of its acquisitions so far,
    and however the schedule goes on, the worker is still there and its
    count has grown by its acquisitions since. *)
Theorem V3_entries_pile_up (sched sched' : list Action) (st : State)
    (tr tr' : Trace) (s s' : V3.Sys) (t : nat) (w : V3.Worker) :
  V3.exec sched (V3.at_load st) = Some (tr, s) →
  V3.exec sched' s = Some (tr', s') →
  V3.workers s !! t = Some w →
  V3.entered w = count is_acquire (events_of t tr) ∧
  ∃ w', V3.workers s' !! t = Some w' ∧
        V3.entered w' = V3.entered w + count is_acquire (events_of t tr').
Proof.
  intros He He' Hw.
  pose proof (V3_enter_never_exits _ _ _ _ _ _ He Hw) as Hn. split; [done|].
  assert (is_Some (V3.workers s' !! t)) as [w' Hw'].
  { apply lookup_lt_is_Some.
    rewrite (exec_workers _ _ _ _ (λ s, length (V3.workers s)) V3_act_workers _ _ _ _ He').
    apply lookup_lt_Some in Hw. lia. }
  exists w'. split; [done|].
  assert (V3.exec (sched ++ sched') (V3.at_load st) = Some (tr ++ tr', s')) as Hall.
  { unfold V3.exec in *. by rewrite exec_app, He; cbn [mbind option_bind]; rewrite He'. }
  rewrite (V3_enter_never_exits _ _ _ _ _ _ Hall Hw'), Hn.
  by rewrite events_of_app, count_app.
Qed.

Lemma V3_entries_pile_up_witness :
  ∃ tr s tr' s' w,
    V3.exec [HostStart (Object 1%positive); HostUnlock; Run 0; Run 0; Run 0; Run 0; Run 0]
      (V3.at_load (one_record (record_x (Number 0)))) = Some (tr, s) ∧
    V3.exec [Run 0; Run 0; Run 0; Run 0; Run 0; Run 0; Run 0] s = Some (tr', s') ∧
    V3.workers s !! 0 = Some w ∧
    V3.entered w = count is_acquire (events_of 0 tr) ∧
    ∃ w', V3.workers s' !! 0 = Some w' ∧
          V3.entered w' = V3.entered w + count is_acquire (events_of 0 tr').
Proof.
  eexists _, _, _, _, _. split; [vm_compute; reflexivity|].
  split; [vm_compute; reflexivity|]. split; [vm_compute; reflexivity|].
  refine (V3_entries_pile_up
    [HostStart (Object 1%positive); HostUnlock; Run 0; Run 0; Run 0; Run 0; Run 0]
    [Run 0; Run 0; Run 0; Run 0; Run 0; Run 0; Run 0]
    (one_record (record_x (Number 0))) _ _ _ _ 0 _ _ _ _); vm_compute; reflexivity.
Defined.

End Entries.

(** ** mutate03 and mutate01 side by side *)

Section SideBySide.

(** X16: with the lock free, a pass of a worker of mutate03 that no
    other step interrupts does to the heap and the handle what one call
    of [mutate()] of mutate01 does: where the call returns (or throws,
    after its [Set]), the five steps reach its state with one write
    logged and the lock free again; where the call would end the
    process, so does the pass. *)
Theorem pass_is_a_mutate_call (s : V3.Sys) (t : nat) (w : V3.Worker) :
  V3.workers s !! t = Some w → V3.phase w = V3.Sleeping → V3.locker s = None →
  match V1.Mutate (V3.world s) with
  | Returned _ st' | Threw st' =>
      ∃ tr s', V3.exec (replicate 5 (Run t)) s = Some (tr, s') ∧
               V3.world s' = st' ∧ V3.locker s' = None ∧ writes tr = 1
  | Fault => V3.exec (replicate 5 (Run t)) s = None
  end.
Proof.
  intros Hw Hph Hlk. pose proof (lookup_lt_Some _ _ _ Hw) as Hlt.
  unfold V1.Mutate.
  destruct (load (V3.world s)) as [[r c]|] eqn:Hld.
  - apply load_inv in Hld as (Hp & o & Ho & ->).
    rewrite (wake_alone _ _ _ _ _ Hw Hph Hlk Hp Ho).
    destruct (load_throws (V3.world s)); eexists _, _; (split; [reflexivity|]); done.
  - unfold V3.exec. cbn [replicate].
    erewrite exec_Run; [|by apply step_sleep].
    erewrite exec_Run;
      [|apply step_acquire; [cbn; by apply list_lookup_insert_eq|done|done]].
    simpl. unfold V3.mutate, HandleScope. cbn [V3.workers V3.world V3.locker].
    rewrite list_lookup_insert_eq by (by rewrite length_insert).
    cbn [V3.phase]. by rewrite bool_decide_true, Hld by done.
Qed.

Lemma pass_is_a_mutate_call_witness :
  ∃ tr s',
    V3.exec (replicate 5 (Run 0))
      (V3.mkSys (mkState {[ 1%positive := record_x (Number 0) ]} (Some 1%positive))
         None [V3.mkWorker V3.Sleeping 0]) = Some (tr, s') ∧
    V3.world s' =
      store 1%positive 0 (mkState {[ 1%positive := record_x (Number 0) ]} (Some 1%positive)) ∧
    V3.locker s' = None ∧ writes tr = 1.
Proof.
  exact (pass_is_a_mutate_call
           (V3.mkSys (mkState {[ 1%positive := record_x (Number 0) ]} (Some 1%positive))
              None [V3.mkWorker V3.Sleeping 0])
           0 (V3.mkWorker V3.Sleeping 0) eq_refl eq_refl eq_refl).
Defined.

End SideBySide.
